(** * Value-based policies: the [ActionValue] layer of tensorforce

    Shallow embedding of [tensorforce/core/policies/action_value.py] and
    proofs of its contract: signature declaration, the flattening
    operations [actions_value] / [states_value], the max-reduction
    [states_values], and the abstract estimators.

    Python exceptions are values of [exn]; a method of the policy object is
    a computation in the monad [M], which threads the attributes of [self]
    and an outcome (a returned value or a raised exception). *)

From Stdlib Require Import String ZArith Arith Bool Lia List.
Import ListNotations.

Set Implicit Arguments.

(** ** Exceptions and outcomes *)

Inductive exn : Type :=
| NotImplementedError
| KeyError (name : string)
| ValueError
| InvalidArgumentError.

Inductive result (A : Type) : Type :=
| Ok (a : A)
| Raise (e : exn).

Arguments Ok {A} a.
Arguments Raise {A} e.

Definition result_bind {A B : Type} (r : result A) (k : A -> result B) : result B :=
  match r with
  | Ok a => k a
  | Raise e => Raise e
  end.

(** [map_result f xs] applies a function that may raise to every element,
    left to right, and stops at the first exception. *)
Fixpoint map_result {A B : Type} (f : A -> result B) (xs : list A) : result (list B) :=
  match xs with
  | [] => Ok []
  | x :: xs' =>
      result_bind (f x) (fun y =>
      result_bind (map_result f xs') (fun ys => Ok (y :: ys)))
  end.

(** ** Scalars

    Tensor entries of value type are compared, never computed with: the
    layer only reshapes, concatenates and max-reduces.  The entries are
    taken from any type with a boolean order and a lowest element (the
    result of a max-reduction over an empty axis). *)

Class Scalar (V : Type) : Type := {
  vle : V -> V -> bool;
  lowest : V
}.

Class ScalarOrder (V : Type) `{Scalar V} : Prop := {
  vle_total : forall a b : V, vle a b = true \/ vle b a = true;
  vle_trans : forall a b c : V, vle a b = true -> vle b c = true -> vle a c = true
}.

(** ** Tensors and the TensorFlow operations the layer calls *)

Module TF.

(** A dense tensor in row-major layout. *)
Record Tensor (A : Type) : Type := mkTensor {
  shape : list nat;
  data : list A
}.

Definition numel (dims : list nat) : nat := fold_right Nat.mul 1 dims.

Definition well_formed {A : Type} (t : Tensor A) : Prop :=
  length (data t) = numel (shape t).

Definition rank {A : Type} (t : Tensor A) : nat := length (shape t).

(** [rows n count xs] cuts [xs] into [count] consecutive runs of [n]
    entries: the slices along the last axis. *)
Definition rows {A : Type} (n count : nat) (xs : list A) : list (list A) :=
  map (fun j => firstn n (skipn (j * n) xs)) (seq 0 count).

(** *** [tf.reshape]

    The requested shape may hold one [-1], inferred from the number of
    entries.  With a [-1] next to a dimension [0] the answer of
    TensorFlow depends on its version; the model rejects that request. *)

Definition unknown_dim (d : Z) : bool := (d =? -1)%Z.

Definition known_product (dims : list Z) : nat :=
  Z.to_nat (fold_right Z.mul 1%Z (filter (fun d => negb (unknown_dim d)) dims)).

Definition infer_shape (total : nat) (dims : list Z) : result (list nat) :=
  if existsb (fun d => (d <? -1)%Z) dims then Raise InvalidArgumentError
  else
    let known := known_product dims in
    match length (filter unknown_dim dims) with
    | 0 =>
        if known =? total then Ok (map Z.to_nat dims)
        else Raise InvalidArgumentError
    | 1 =>
        if known =? 0 then Raise InvalidArgumentError
        else if total mod known =? 0
        then Ok (map (fun d => if unknown_dim d then total / known else Z.to_nat d) dims)
        else Raise InvalidArgumentError
    | _ => Raise InvalidArgumentError
    end.

Definition reshape {A : Type} (tensor : Tensor A) (dims : list Z) : result (Tensor A) :=
  result_bind (infer_shape (numel (shape tensor)) dims) (fun s =>
  Ok {| shape := s; data := data tensor |}).

(** *** [tf.concat]

    All shapes agree outside [axis]; the entries of the inputs are
    interleaved block by block.  An empty tuple of values is rejected. *)

Definition same_dims (xs ys : list nat) : bool :=
  if list_eq_dec Nat.eq_dec xs ys then true else false.

Definition agree_except (axis : nat) (s0 s : list nat) : bool :=
  same_dims (firstn axis s) (firstn axis s0)
  && same_dims (skipn (S axis) s) (skipn (S axis) s0)
  && (axis <? length s).

Definition block {A : Type} (axis : nat) (t : Tensor A) : nat :=
  numel (skipn axis (shape t)).

Definition concat {A : Type} (values : list (Tensor A)) (axis : nat) : result (Tensor A) :=
  match values with
  | [] => Raise InvalidArgumentError
  | t0 :: _ =>
      if forallb (fun t => agree_except axis (shape t0) (shape t)) values
      then
        Ok {| shape := firstn axis (shape t0)
                       ++ list_sum (map (fun t => nth axis (shape t) 0) values)
                       :: skipn (S axis) (shape t0);
              data := flat_map
                        (fun o => flat_map
                           (fun t => firstn (block axis t) (skipn (o * block axis t) (data t)))
                           values)
                        (seq 0 (numel (firstn axis (shape t0)))) |}
      else Raise InvalidArgumentError
  end.

Section Reductions.
Context {V : Type} `{Scalar V}.

(** The larger of two scalars; the first one wins a tie. *)
Definition vmax (a b : V) : V := if vle b a then a else b.

Definition max_of (xs : list V) : V :=
  match xs with
  | [] => lowest
  | x :: xs' => fold_left vmax xs' x
  end.

(** Position of the first largest entry, scanning from position [i]
    with [best] at position [besti] so far. *)
Fixpoint argmax_from (best : V) (besti i : nat) (xs : list V) : nat :=
  match xs with
  | [] => besti
  | x :: xs' =>
      if vle x best then argmax_from best besti (S i) xs'
      else argmax_from x i (S i) xs'
  end.

Definition argmax_of (xs : list V) : nat :=
  match xs with
  | [] => 0
  | x :: xs' => argmax_from x 0 1 xs'
  end.

(** *** [tf.math.reduce_max] with [axis=-1]: the maximum of every
    slice along the last axis; a scalar has no axis to reduce. *)
Definition reduce_max (input_tensor : Tensor V) : result (Tensor V) :=
  match shape input_tensor with
  | [] => Raise InvalidArgumentError
  | _ :: _ =>
      let s := removelast (shape input_tensor) in
      let n := last (shape input_tensor) 0 in
      Ok {| shape := s; data := map max_of (rows n (numel s) (data input_tensor)) |}
  end.

(** *** [tf.math.argmax] with [axis=-1]: the position of the maximum
    of every slice along the last axis, which must not be empty. *)
Definition argmax (input : Tensor V) : result (Tensor nat) :=
  match shape input with
  | [] => Raise InvalidArgumentError
  | _ :: _ =>
      let s := removelast (shape input) in
      let n := last (shape input) 0 in
      if n =? 0 then Raise InvalidArgumentError
      else Ok {| shape := s; data := map argmax_of (rows n (numel s) (data input)) |}
  end.

(** Selection along the last axis: entry [indices[j]] of slice [j].
    The positions must have the shape of [params] without its last
    axis and lie inside it. *)
Definition take_along_last (params : Tensor V) (indices : Tensor nat) : result (Tensor V) :=
  match shape params with
  | [] => Raise InvalidArgumentError
  | _ :: _ =>
      let s := removelast (shape params) in
      let n := last (shape params) 0 in
      if same_dims (shape indices) s
         && (length (data indices) =? numel s)
         && forallb (fun i => i <? n) (data indices)
      then Ok {| shape := s;
                 data := map (fun '(row, i) => nth i row lowest)
                           (combine (rows n (numel s) (data params)) (data indices)) |}
      else Raise InvalidArgumentError
  end.

End Reductions.

End TF.

(** ** Ordered dictionaries, tensor specifications and signatures *)

Module Core.

(** Modelled from the spec: the ordered mapping from names to values
    ([NestedDict] and its subclasses, whose module is not part of the
    sources at hand).  Iteration follows the order of the items;
    [fmap] maps a function over the values and keeps names and order;
    with [zip_values] the function also receives the entry of the same
    name of a second mapping, and a missing name raises [KeyError]. *)
Definition Dict (A : Type) : Type := list (string * A).

(** Modelled from the spec: the names of a mapping, in its order. *)
Definition keys {A : Type} (d : Dict A) : list string := map fst d.

(** Modelled from the spec: [values()], the values in the order of the
    mapping. *)
Definition values {A : Type} (d : Dict A) : list A := map snd d.

(** Modelled from the spec: the entry of a name; [KeyError] without one. *)
Fixpoint getitem {A : Type} (d : Dict A) (name : string) : result A :=
  match d with
  | [] => Raise (KeyError name)
  | (k, v) :: d' => if String.eqb k name then Ok v else getitem d' name
  end.

(** Modelled from the spec: [fmap(function=...)] of the ordered mapping;
    an exception of the function ends the traversal. *)
Definition fmap {A B : Type} (function : A -> result B) (d : Dict A) : result (Dict B) :=
  map_result
    (fun '(name, value) => result_bind (function value) (fun y => Ok (name, y)))
    d.

(** Modelled from the spec: [fmap(function=..., zip_values=...)], the
    function applied to every value and the entry of its name in
    [zip_values]; the result has the names and the order of [d]. *)
Definition fmap_zip {A B C : Type} (function : A -> C -> result B)
           (d : Dict A) (zip_values : Dict C) : result (Dict B) :=
  map_result
    (fun '(name, value) =>
       result_bind (getitem zip_values name) (fun z =>
       result_bind (function value z) (fun y => Ok (name, y))))
    d.

Inductive dtype : Type := bool_type | int_type | float_type.

(** Modelled from the spec: [TensorSpec], a type and a shape of
    non-negative dimensions; [size] is the product of the shape. *)
Record TensorSpec : Type := mkTensorSpec {
  type : dtype;
  shape : list nat
}.

(** Modelled from the spec: [TensorSpec.size], the product of the
    dimensions. *)
Definition size (spec : TensorSpec) : nat := TF.numel (shape spec).

(** The signature of a tensor: its type and its dimensions, where
    [None] is the batch axis of unknown length. *)
Record Signature : Type := mkSignature {
  sig_type : dtype;
  sig_shape : list (option nat)
}.

(** Modelled from the spec: [SignatureDict], an ordered mapping from
    names to tensor signatures or nested mappings, with a distinguished
    singleton entry for an unnamed single value. *)
Inductive SignatureDict : Type :=
| SigTensor (s : Signature)
| SigDict (items : list (string * SignatureDict))
| SigSingleton (value : SignatureDict).

(** Modelled from the spec: [TensorSpec.signature(batched=...)], the
    shape descriptor of the tensor, behind a batch axis when batched. *)
Definition signature (batched : bool) (spec : TensorSpec) : SignatureDict :=
  SigTensor {| sig_type := type spec;
               sig_shape := (if batched then [None] else []) ++ map Some (shape spec) |}.

(** Modelled from the spec: [signature(batched=...)] of a mapping of
    specifications, the signatures of all components in its order. *)
Definition signatures (batched : bool) (specs : Dict TensorSpec) : SignatureDict :=
  SigDict (map (fun '(name, spec) => (name, signature batched spec)) specs).

(** Modelled from the spec: [SignatureDict.singleton()], the value of
    the singleton entry. *)
Definition singleton (d : SignatureDict) : result SignatureDict :=
  match d with
  | SigSingleton value => Ok value
  | _ => Raise ValueError
  end.

(** Modelled from the spec: the distribution of one action component,
    seen through the only method the layer calls, its own
    [output_signature]. *)
Record Distribution : Type := mkDistribution {
  distribution_output_signature : string -> result SignatureDict
}.

(** The attributes of the policy object the layer reads: the four
    specifications and the distributions, owned by the parent class. *)
Record Self : Type := mkSelf {
  states_spec : Dict TensorSpec;
  internals_spec : Dict TensorSpec;
  auxiliaries_spec : Dict TensorSpec;
  actions_spec : Dict TensorSpec;
  distributions : Dict Distribution
}.

(** A method call: from the object before the call to an outcome and
    the object after it. *)
Definition M (A : Type) : Type := Self -> result A * Self.

Definition ret {A : Type} (a : A) : M A := fun self => (Ok a, self).

Definition raise {A : Type} (e : exn) : M A := fun self => (Raise e, self).

Definition bind {A B : Type} (m : M A) (k : A -> M B) : M B :=
  fun self =>
    match m self with
    | (Ok a, self') => k a self'
    | (Raise e, self') => (Raise e, self')
    end.

Definition attr {A : Type} (field : Self -> A) : M A := fun self => (Ok (field self), self).

Definition lift {A : Type} (r : result A) : M A := fun self => (r, self).

End Core.

Declare Scope method_scope.
Delimit Scope method_scope with method.
Notation "x <- m ;; k" := (Core.bind m (fun x => k))
  (at level 61, m at next level, right associativity) : method_scope.

(** ** The class [ActionValue] *)

Module ActionValue.
Import Core.
Local Open Scope method_scope.
Local Open Scope string_scope.
Local Open Scope list_scope.

(** The argument count each [tf_function] decorator of the class states.
    The decorator itself belongs to the execution wrapper; a decorated
    method is modelled by its body. *)
Definition num_args (function : string) : option nat :=
  if function =? "actions_value" then Some 5
  else if function =? "actions_values" then Some 5
  else if function =? "all_actions_values" then Some 4
  else if function =? "states_value" then Some 4
  else if function =? "states_values" then Some 4
  else None.

Section Methods.
(** The entries of value tensors, and the batched argument groups,
    which the layer hands on without looking inside. *)
Context {V : Type} `{Scalar V}.
Context {States Horizons Internals Auxiliaries Actions : Type}.

(** The declarations of the parent class [Policy], which is not part
    of the sources at hand. *)
Variable Policy_input_signature : string -> M SignatureDict.
Variable Policy_output_signature : string -> M SignatureDict.

(** The two methods a concrete subclass supplies; the calls
    [self.actions_values(...)] and [self.all_actions_values(...)] are
    resolved in the class of the object.  The other methods are those of
    this class, as a subclass inherits them. *)
Record Class : Type := mkClass {
  self_actions_values :
    States -> Horizons -> Internals -> Auxiliaries -> Actions -> M (Dict (TF.Tensor V));
  self_all_actions_values :
    States -> Horizons -> Internals -> Auxiliaries -> M (Dict (TF.Tensor V))
}.

Definition input_signature (function : string) : M SignatureDict :=
  if function =? "actions_value" then
    self <- attr (fun self => self) ;;
    ret (SigDict
           [ ("states", signatures true (states_spec self));
             ("horizons", signature true {| type := int_type; shape := [2] |});
             ("internals", signatures true (internals_spec self));
             ("auxiliaries", signatures true (auxiliaries_spec self));
             ("actions", signatures true (actions_spec self)) ])
  else if function =? "actions_values" then
    self <- attr (fun self => self) ;;
    ret (SigDict
           [ ("states", signatures true (states_spec self));
             ("horizons", signature true {| type := int_type; shape := [2] |});
             ("internals", signatures true (internals_spec self));
             ("auxiliaries", signatures true (auxiliaries_spec self));
             ("actions", signatures true (actions_spec self)) ])
  else if function =? "all_actions_values" then
    self <- attr (fun self => self) ;;
    ret (SigDict
           [ ("states", signatures true (states_spec self));
             ("horizons", signature true {| type := int_type; shape := [2] |});
             ("internals", signatures true (internals_spec self));
             ("auxiliaries", signatures true (auxiliaries_spec self)) ])
  else if function =? "states_value" then
    self <- attr (fun self => self) ;;
    ret (SigDict
           [ ("states", signatures true (states_spec self));
             ("horizons", signature true {| type := int_type; shape := [2] |});
             ("internals", signatures true (internals_spec self));
             ("auxiliaries", signatures true (auxiliaries_spec self)) ])
  else if function =? "states_values" then
    self <- attr (fun self => self) ;;
    ret (SigDict
           [ ("states", signatures true (states_spec self));
             ("horizons", signature true {| type := int_type; shape := [2] |});
             ("internals", signatures true (internals_spec self));
             ("auxiliaries", signatures true (auxiliaries_spec self)) ])
  else
    Policy_input_signature function.

Definition output_signature (function : string) : M SignatureDict :=
  if function =? "actions_value" then
    actions_spec <- attr actions_spec ;;
    ret (SigSingleton (signature true
           {| type := float_type;
              shape := [list_sum (map size (values actions_spec))] |}))
  else if function =? "actions_values" then
    actions_spec <- attr actions_spec ;;
    d <- lift (fmap
                 (fun spec => Ok (signature true {| type := float_type; shape := shape spec |}))
                 actions_spec) ;;
    ret (SigSingleton (SigDict d))
  else if function =? "all_actions_values" then
    distributions <- attr distributions ;;
    d <- lift (fmap
                 (fun x => result_bind (distribution_output_signature x "all_action_values")
                                       singleton)
                 distributions) ;;
    ret (SigSingleton (SigDict d))
  else if function =? "states_value" then
    actions_spec <- attr actions_spec ;;
    ret (SigSingleton (signature true
           {| type := float_type;
              shape := [list_sum (map size (values actions_spec))] |}))
  else if function =? "states_values" then
    actions_spec <- attr actions_spec ;;
    d <- lift (fmap
                 (fun spec => Ok (signature true {| type := float_type; shape := shape spec |}))
                 actions_spec) ;;
    ret (SigSingleton (SigDict d))
  else
    Policy_output_signature function.

Definition actions_value (cls : Class)
           (states : States) (horizons : Horizons) (internals : Internals)
           (auxiliaries : Auxiliaries) (actions : Actions) : M (TF.Tensor V) :=
  actions_values <- self_actions_values cls states horizons internals auxiliaries actions ;;
  let function := fun (value : TF.Tensor V) (spec : TensorSpec) =>
                    TF.reshape value [(-1)%Z; Z.of_nat (size spec)] in
  actions_spec <- attr actions_spec ;;
  actions_values <- lift (fmap_zip function actions_values actions_spec) ;;
  lift (TF.concat (values actions_values) 1).

Definition actions_values
           (states : States) (horizons : Horizons) (internals : Internals)
           (auxiliaries : Auxiliaries) (actions : Actions) : M (Dict (TF.Tensor V)) :=
  raise NotImplementedError.

Definition all_actions_values
           (states : States) (horizons : Horizons) (internals : Internals)
           (auxiliaries : Auxiliaries) : M (Dict (TF.Tensor V)) :=
  raise NotImplementedError.

Definition states_values (cls : Class)
           (states : States) (horizons : Horizons) (internals : Internals)
           (auxiliaries : Auxiliaries) : M (Dict (TF.Tensor V)) :=
  actions_values <- self_all_actions_values cls states horizons internals auxiliaries ;;
  lift (fmap (fun action_values => TF.reduce_max action_values) actions_values).

Definition states_value (cls : Class)
           (states : States) (horizons : Horizons) (internals : Internals)
           (auxiliaries : Auxiliaries) : M (TF.Tensor V) :=
  states_values <- states_values cls states horizons internals auxiliaries ;;
  let function := fun (value : TF.Tensor V) (spec : TensorSpec) =>
                    TF.reshape value [(-1)%Z; Z.of_nat (size spec)] in
  actions_spec <- attr actions_spec ;;
  states_values <- lift (fmap_zip function states_values actions_spec) ;;
  lift (TF.concat (values states_values) 1).

(** The class itself, with no concrete subclass: both estimators are
    the abstract methods. *)
Definition base : Class :=
  {| self_actions_values := actions_values;
     self_all_actions_values := all_actions_values |}.

End Methods.

End ActionValue.

(** ** The contract, in the words of the specification *)

Module Contract.
Import Core.
Local Open Scope method_scope.
Local Open Scope list_scope.

(** Every leaf of a signature starts with the batch axis. *)
Fixpoint batched (d : SignatureDict) : bool :=
  match d with
  | SigTensor s =>
      match sig_shape s with
      | None :: _ => true
      | _ => false
      end
  | SigDict items => forallb (fun '(_, v) => batched v) items
  | SigSingleton value => batched value
  end.

(** Sum of the flattened sizes of all components. *)
Definition total_size (actions_spec : Dict TensorSpec) : nat :=
  list_sum (map size (values actions_spec)).

(** A method that leaves every attribute of the object as it was. *)
Definition read_only {A : Type} (m : M A) : Prop :=
  forall self, snd (m self) = self.

(** A second invocation, after the first, has the outcome of the first. *)
Definition repeatable {A : Type} (m : M A) : Prop :=
  forall self, m (snd (m self)) = m self.

Definition pure_method {A : Type} (m : M A) : Prop :=
  read_only m /\ repeatable m.

(** The input contract of an operation: a declaration that returns,
    whatever the object, a mapping with exactly the groups [groups], in
    this order and as many as the decorator of the operation counts,
    every group batched, the horizons being integer pairs. *)
Definition declares (declaration : string -> M SignatureDict)
           (function : string) (groups : list string) : Prop :=
  forall self, exists items,
    declaration function self = (Ok (SigDict items), self)
    /\ keys items = groups
    /\ ActionValue.num_args function = Some (length items)
    /\ forallb batched (values items) = true
    /\ getitem items "horizons"
       = Ok (SigTensor {| sig_type := int_type; sig_shape := [None; Some 2] |}).

Section Values.
Context {V : Type} `{Scalar V}.

(** The batch axis is the leading one. *)
Definition batch (value : TF.Tensor V) : nat := hd 0 (TF.shape value).

(** The flattening of sections 4.2 and 4.6: for every component of
    the actions specification, in the order of the specification, the
    component's value reshaped to (batch, component size); the pieces
    concatenated along the component axis. *)
Definition flatten (actions_spec : Dict TensorSpec) (vals : Dict (TF.Tensor V))
  : result (TF.Tensor V) :=
  result_bind
    (map_result
       (fun '(name, spec) =>
          result_bind (getitem vals name) (fun value =>
          TF.reshape value [Z.of_nat (batch value); Z.of_nat (size spec)]))
       actions_spec)
    (fun pieces => TF.concat pieces 1).

(** A mapping of per-component values as output_signature declares
    it for actions_values and states_values: the components of the
    actions specification, in order, each a tensor of the component's
    shape behind a batch axis of length [b]. *)
Definition conforms (b : nat) (actions_spec : Dict TensorSpec)
           (vals : Dict (TF.Tensor V)) : Prop :=
  Forall2
    (fun '(name, spec) '(name', value) =>
       name' = name /\ TF.shape value = b :: shape spec /\ TF.well_formed value)
    actions_spec vals.

(** A mapping of per-component value tables: as [conforms], with a
    trailing axis for the choices of the component. *)
Definition tabulates (b : nat) (actions_spec : Dict TensorSpec)
           (tables : Dict (TF.Tensor V)) : Prop :=
  Forall2
    (fun '(name, spec) '(name', table) =>
       name' = name
       /\ (exists n, TF.shape table = b :: shape spec ++ [n])
       /\ TF.well_formed table)
    actions_spec tables.

(** A usable actions specification: distinct names, no component
    without entries. *)
Definition valid_actions_spec (actions_spec : Dict TensorSpec) : Prop :=
  NoDup (keys actions_spec)
  /\ Forall (fun '(_, spec) => 0 < size spec) actions_spec.

(** Entry [j] of the reduced tensor is the maximum of slice [j] of
    the table along its last axis, of length [n]. *)
Definition maximum_of_slice (table reduced : TF.Tensor V) (n j : nat) : Prop :=
  (forall k, k < n ->
     vle (nth (j * n + k) (TF.data table) lowest) (nth j (TF.data reduced) lowest) = true)
  /\ (0 < n -> exists k, k < n /\
        nth j (TF.data reduced) lowest = nth (j * n + k) (TF.data table) lowest)
  /\ (n = 0 -> nth j (TF.data reduced) lowest = lowest).

(** [reduced] is [table] max-reduced over its last axis: the last
    axis is gone, the batch axis is kept, and every entry is the
    maximum of its slice. *)
Definition reduces (table reduced : TF.Tensor V) : Prop :=
  TF.shape reduced = removelast (TF.shape table)
  /\ batch reduced = batch table
  /\ TF.well_formed reduced
  /\ forall j, j < TF.numel (TF.shape reduced) ->
               maximum_of_slice table reduced (last (TF.shape table) 0) j.

(** The greedy joint action: per component, the position of the
    largest value of every slice of the table. *)
Definition greedy_action (tables : Dict (TF.Tensor V)) : result (Dict (TF.Tensor nat)) :=
  fmap (fun table => TF.argmax table) tables.

Section Estimator.
Context {States Horizons Internals Auxiliaries Actions : Type}.

(** How a joint action of positions is handed to the estimator. *)
Variable discrete : Dict (TF.Tensor nat) -> Actions.

(** An estimator whose value of a joint action is the entry of its
    table of all values at that action. *)
Definition consistent
           (cls : @ActionValue.Class V States Horizons Internals Auxiliaries Actions)
  : Prop :=
  forall states horizons internals auxiliaries actions self,
    ActionValue.self_actions_values cls states horizons internals auxiliaries
                                    (discrete actions) self
    = (tables <- ActionValue.self_all_actions_values cls states horizons internals
                                                     auxiliaries ;;
       lift (fmap_zip (fun table action => TF.take_along_last table action)
                      tables actions)) self.

(** An estimator that leaves the object alone. *)
Definition read_only_class
           (cls : @ActionValue.Class V States Horizons Internals Auxiliaries Actions)
  : Prop :=
  (forall states horizons internals auxiliaries actions,
      read_only (ActionValue.self_actions_values cls states horizons internals
                                                 auxiliaries actions))
  /\ (forall states horizons internals auxiliaries,
         read_only (ActionValue.self_all_actions_values cls states horizons internals
                                                        auxiliaries)).
End Estimator.
End Values.

End Contract.

(** ** A concrete policy: two components, integer-valued tables *)

Module Example.
Import Core.
Local Open Scope string_scope.
Local Open Scope list_scope.

(** Integer entries; the lowest is that of 32-bit integers. *)
#[export] Instance Z_Scalar : Scalar Z := {|
  vle := Z.leb;
  lowest := (-2147483648)%Z
|}.

Definition table_signature (dims : list nat) (num_values : nat) (function : string)
  : result SignatureDict :=
  if function =? "all_action_values"
  then Ok (SigSingleton (signature true {| type := float_type; shape := dims ++ [num_values] |}))
  else Raise ValueError.

(** [move] has two entries of three choices each, [jump] one entry of
    two choices. *)
Definition policy : Self := {|
  states_spec := [("position", {| type := float_type; shape := [3] |})];
  internals_spec := [];
  auxiliaries_spec := [];
  actions_spec := [("move", {| type := int_type; shape := [2] |});
                   ("jump", {| type := int_type; shape := [1] |})];
  distributions := [("move", {| distribution_output_signature := table_signature [2] 3 |});
                    ("jump", {| distribution_output_signature := table_signature [1] 2 |})]
|}.

(** The tables of a batch of two states. *)
Definition tables : Dict (TF.Tensor Z) :=
  [("move", {| TF.shape := [2; 2; 3];
               TF.data := [1; 5; 2;  7; 7; 0;  -3; -1; -2;  4; 9; 9]%Z |});
   ("jump", {| TF.shape := [2; 1; 2];
               TF.data := [6; 8;  0; -4]%Z |})].

(** An estimator that reads the value of an action off its tables. *)
Definition table_lookup : @ActionValue.Class Z unit unit unit unit (Dict (TF.Tensor nat)) := {|
  ActionValue.self_actions_values := fun _ _ _ _ actions =>
    lift (fmap_zip (fun table action => TF.take_along_last table action) tables actions);
  ActionValue.self_all_actions_values := fun _ _ _ _ => ret tables
|}.

(** The parent class knows no operation. *)
Definition no_signature (function : string) : M SignatureDict := raise (KeyError function).

(** The tables max-reduced over their choices. *)
Definition reduced : Dict (TF.Tensor Z) :=
  [("move", {| TF.shape := [2; 2]; TF.data := [5; 7; -1; 9]%Z |});
   ("jump", {| TF.shape := [2; 1]; TF.data := [8; 0]%Z |})].

(** The positions of these maxima. *)
Definition greedy : Dict (TF.Tensor nat) :=
  [("move", {| TF.shape := [2; 2]; TF.data := [1; 0; 1; 1] |});
   ("jump", {| TF.shape := [2; 1]; TF.data := [1; 0] |})].

End Example.

(** ** Layout of flat outputs and fitting of contracts *)

Module Layout.
Import Core.

(** Row [e] of a row-major matrix with rows of [width] entries. *)
Definition row {A : Type} (width e : nat) (xs : list A) : list A :=
  firstn width (skipn (e * width) xs).

(** The entries of batch element [e] of a tensor whose leading axis is
    the batch axis. *)
Definition batch_element {A : Type} (e : nat) (value : TF.Tensor A) : list A :=
  row (TF.numel (tl (TF.shape value))) e (TF.data value).

(** A contract with the last axis of every tensor removed. *)
Fixpoint strip_last_axis (d : SignatureDict) : SignatureDict :=
  match d with
  | SigTensor s =>
      SigTensor {| sig_type := sig_type s; sig_shape := removelast (sig_shape s) |}
  | SigDict items => SigDict (map (fun '(name, v) => (name, strip_last_axis v)) items)
  | SigSingleton value => SigSingleton (strip_last_axis value)
  end.

(** A dimension fits a declared one; the batch axis fits any length. *)
Definition dim_fits (declared : option nat) (n : nat) : bool :=
  match declared with
  | None => true
  | Some m => m =? n
  end.

Fixpoint dims_fit (declared : list (option nat)) (dims : list nat) : bool :=
  match declared, dims with
  | [], [] => true
  | d :: declared', n :: dims' => dim_fits d n && dims_fit declared' dims'
  | _, _ => false
  end.

(** A mapping of tensors fits a contract: the same names in the same
    order, every tensor of the declared rank and dimensions. *)
Definition fits {A : Type} (contract : SignatureDict) (vals : Dict (TF.Tensor A)) : Prop :=
  match contract with
  | SigDict items =>
      Forall2
        (fun '(name, declared) '(name', value) =>
           name' = name
           /\ exists s, declared = SigTensor s
                        /\ dims_fit (sig_shape s) (TF.shape value) = true)
        items vals
  | _ => False
  end.

Section Order.
Context {V : Type} `{Scalar V}.

(** [low] is entry by entry at most [high], both of one shape. *)
Definition below (low high : TF.Tensor V) : Prop :=
  TF.shape low = TF.shape high
  /\ forall j, j < TF.numel (TF.shape high) ->
               vle (nth j (TF.data low) lowest) (nth j (TF.data high) lowest) = true.

(** The same, component by component, for mappings with the same names. *)
Definition all_below (lows highs : Dict (TF.Tensor V)) : Prop :=
  Forall2 (fun '(name, low) '(name', high) => name' = name /\ below low high) lows highs.

(** A table of all values: well formed, with a batch and a choice axis. *)
Definition value_table (table : TF.Tensor V) : Prop :=
  TF.well_formed table /\ 2 <= TF.rank table.

End Order.

End Layout.

(** ** The learning tests of the PPO agent

    The agent, the environment and the runner are outside the sources at
    hand; a run is seen through the episode counter it leaves behind. *)

Module TestPPOAgent.

(** What the callbacks read of a runner: the number of finished episodes
    and the reward of every episode so far. *)
Record Runner (Reward : Type) : Type := mkRunner {
  episode : Z;
  episode_rewards : list Reward
}.

Arguments episode {Reward} r.
Arguments episode_rewards {Reward} r.

(** The slice [xs[-n:]]: the last [n] entries, or all of a shorter list. *)
Definition last_slice {A : Type} (n : nat) (xs : list A) : list A :=
  skipn (length xs - n) xs.

Section Callbacks.
Context {Reward : Type}.

(** The comparison [x >= 1.0] on rewards. *)
Variable at_least_one : Reward -> bool.

(** The callback of [test_discrete] and [test_continuous]; the run goes
    on while it answers [true]. *)
Definition episode_finished (r : Runner Reward) : bool :=
  (episode r <? 100)%Z
  || negb (forallb at_least_one (last_slice 100 (episode_rewards r))).

(** The callback of [test_multi]. *)
Definition episode_finished_multi (r : Runner Reward) : bool :=
  (episode r <? 20)%Z
  || negb (forallb at_least_one (last_slice 20 (episode_rewards r))).

End Callbacks.

(** The number of runs, out of [runs], that ended before [limit]
    episodes; [episodes_of i] is the counter run [i] leaves behind. *)
Definition count_passed (runs : nat) (limit : Z) (episodes_of : nat -> Z) : Z :=
  fold_left
    (fun passed i => if (episodes_of i <? limit)%Z then (passed + 1)%Z else passed)
    (seq 0 runs) 0%Z.

(** The final assertion of each test. *)
Definition test_discrete (episodes_of : nat -> Z) : bool :=
  let passed := count_passed 5 1000 episodes_of in
  (passed >=? 4)%Z.

Definition test_continuous (episodes_of : nat -> Z) : bool :=
  let passed := count_passed 5 1000 episodes_of in
  (passed >=? 4)%Z.

Definition test_multi (episodes_of : nat -> Z) : bool :=
  let passed := count_passed 5 5000 episodes_of in
  (passed >=? 0)%Z.

End TestPPOAgent.

(** ** A second estimator for the concrete policy *)

Module Example2.
Import Core Example.
Local Open Scope string_scope.
Local Open Scope list_scope.

(** Tables that are nowhere below those of [Example.tables]. *)
Definition higher_tables : Dict (TF.Tensor Z) :=
  [("move", {| TF.shape := [2; 2; 3];
               TF.data := [1; 6; 2;  7; 8; 0;  -3; -1; 4;  4; 9; 9]%Z |});
   ("jump", {| TF.shape := [2; 1; 2];
               TF.data := [6; 8;  3; -4]%Z |})].

Definition higher_lookup : @ActionValue.Class Z unit unit unit unit (Dict (TF.Tensor nat)) := {|
  ActionValue.self_actions_values := fun _ _ _ _ actions =>
    lift (fmap_zip (fun table action => TF.take_along_last table action)
                   higher_tables actions);
  ActionValue.self_all_actions_values := fun _ _ _ _ => ret higher_tables
|}.

(** A joint action that is not the greedy one. *)
Definition cautious : Dict (TF.Tensor nat) :=
  [("move", {| TF.shape := [2; 2]; TF.data := [0; 2; 1; 0] |});
   ("jump", {| TF.shape := [2; 1]; TF.data := [0; 1] |})].

(** An estimator that fails. *)
Definition failing : @ActionValue.Class Z unit unit unit unit (Dict (TF.Tensor nat)) := {|
  ActionValue.self_actions_values := fun _ _ _ _ _ => raise (KeyError "weights");
  ActionValue.self_all_actions_values := fun _ _ _ _ => raise (KeyError "weights")
|}.

(** A policy whose second distribution cannot state its table. *)
Definition half_declared : Self := {|
  states_spec := [];
  internals_spec := [];
  auxiliaries_spec := [];
  actions_spec := [("move", {| type := int_type; shape := [2] |});
                   ("jump", {| type := int_type; shape := [1] |})];
  distributions := [("move", {| distribution_output_signature :=
                                  Example.table_signature [2] 3 |});
                    ("jump", {| distribution_output_signature :=
                                  fun _ => Raise NotImplementedError |})]
|}.

(** Rewards as integers, compared with one. *)
Definition reward_at_least_one (x : Z) : bool := (1 <=? x)%Z.

End Example2.

(** ** The order of the flat outputs *)

Module Order.
Import Core Contract.



End Order.

(** ** An estimator that lists its components in another order *)

Module Swapped.
Import Core Example.
Local Open Scope string_scope.
Local Open Scope list_scope.




End Swapped.

(** * Proofs *)

(** ** Outcomes and method calls *)

Lemma map_result_total {A B : Type} (g : A -> B) (xs : list A) :
  map_result (fun x => Ok (g x)) xs = Ok (map g xs).
Proof.
  induction xs as [|x xs IH]; simpl; [reflexivity|].
  now rewrite IH.
Qed.

Lemma map_result_ext {A B : Type} (f g : A -> result B) (xs : list A) :
  (forall x, In x xs -> f x = g x) -> map_result f xs = map_result g xs.
Proof.
  induction xs as [|x xs IH]; intros Hfg; simpl; [reflexivity|].
  rewrite (Hfg x (or_introl eq_refl)), IH; [reflexivity|].
  intros y Hy. apply Hfg. now right.
Qed.

Lemma map_result_Forall2 {A B : Type} (f : A -> result B) (xs : list A) (ys : list B) :
  map_result f xs = Ok ys -> Forall2 (fun x y => f x = Ok y) xs ys.
Proof.
  revert ys. induction xs as [|x xs IH]; simpl; intros ys Hm.
  - injection Hm as <-. constructor.
  - destruct (f x) as [y|e] eqn:Hfx; simpl in Hm; [|discriminate].
    destruct (map_result f xs) as [ys'|e] eqn:Hrest; simpl in Hm; [|discriminate].
    injection Hm as <-. constructor; auto.
Qed.

Lemma Forall2_map_result {A B : Type} (f : A -> result B) (xs : list A) (ys : list B) :
  Forall2 (fun x y => f x = Ok y) xs ys -> map_result f xs = Ok ys.
Proof.
  induction 1 as [|x y xs ys Hxy _ IH]; simpl; [reflexivity|].
  now rewrite Hxy, IH.
Qed.

Section MethodLaws.
Import Core Contract.

Lemma read_only_ret {A : Type} (a : A) : read_only (ret a).
Proof. intros self. reflexivity. Qed.

Lemma read_only_raise {A : Type} (e : exn) : read_only (@raise A e).
Proof. intros self. reflexivity. Qed.

Lemma read_only_attr {A : Type} (field : Self -> A) : read_only (attr field).
Proof. intros self. reflexivity. Qed.

Lemma read_only_lift {A : Type} (r : result A) : read_only (lift r).
Proof. intros self. reflexivity. Qed.

Lemma read_only_bind {A B : Type} (m : M A) (k : A -> M B) :
  read_only m -> (forall a, read_only (k a)) -> read_only (bind m k).
Proof.
  intros Hm Hk self. unfold bind.
  specialize (Hm self).
  destruct (m self) as [[a|e] self'] eqn:Hrun; simpl in Hm; subst self'.
  - apply Hk.
  - reflexivity.
Qed.

Lemma read_only_repeatable {A : Type} (m : M A) : read_only m -> repeatable m.
Proof. intros Hm self. now rewrite Hm. Qed.

End MethodLaws.

Create HintDb methods.
#[local] Hint Resolve read_only_ret read_only_raise read_only_attr read_only_lift
  read_only_bind : methods.

(** ** Signature declaration *)

Section Declarations.
Import Core Contract.
Local Open Scope string_scope.

Variable Policy_input_signature : string -> M SignatureDict.
Variable Policy_output_signature : string -> M SignatureDict.

Lemma batched_signatures (specs : Dict TensorSpec) :
  batched (signatures true specs) = true.
Proof.
  unfold signatures. simpl.
  induction specs as [|[name spec] specs IH]; simpl; [reflexivity|exact IH].
Qed.

(** C8. The declared input contracts follow the operation table:
    [actions_value] and [actions_values] take the five batched groups
    states, horizons, internals, auxiliaries, actions; the three other
    operations take the first four; horizons is always a batched integer
    tensor of shape (2,). *)
Theorem input_contracts :
  declares (ActionValue.input_signature Policy_input_signature) "actions_value"
           ["states"; "horizons"; "internals"; "auxiliaries"; "actions"]
  /\ declares (ActionValue.input_signature Policy_input_signature) "actions_values"
              ["states"; "horizons"; "internals"; "auxiliaries"; "actions"]
  /\ declares (ActionValue.input_signature Policy_input_signature) "all_actions_values"
              ["states"; "horizons"; "internals"; "auxiliaries"]
  /\ declares (ActionValue.input_signature Policy_input_signature) "states_value"
              ["states"; "horizons"; "internals"; "auxiliaries"]
  /\ declares (ActionValue.input_signature Policy_input_signature) "states_values"
              ["states"; "horizons"; "internals"; "auxiliaries"].
Proof.
  repeat split; intros self; eexists;
    (split; [reflexivity|]);
    (split; [reflexivity|]);
    (split; [reflexivity|]);
    (split; [|reflexivity]);
    cbn [values map snd forallb];
    rewrite ?batched_signatures; reflexivity.
Qed.

(** C7. For an operation name outside the five of this layer, both
    declarations are those of the parent class, unchanged. *)
Theorem signature_fallback (function : string) :
  function <> "actions_value" ->
  function <> "actions_values" ->
  function <> "all_actions_values" ->
  function <> "states_value" ->
  function <> "states_values" ->
  ActionValue.input_signature Policy_input_signature function
  = Policy_input_signature function
  /\ ActionValue.output_signature Policy_output_signature function
     = Policy_output_signature function.
Proof.
  intros H1 H2 H3 H4 H5.
  apply String.eqb_neq in H1, H2, H3, H4, H5.
  unfold ActionValue.input_signature, ActionValue.output_signature.
  rewrite H1, H2, H3, H4, H5. split; reflexivity.
Qed.

(** C10. The output contracts of [actions_values] and [states_values]
    are the same: every action component mapped to a batched float
    tensor of the component's own shape. *)
Theorem values_contracts_agree (self : Self) :
  ActionValue.output_signature Policy_output_signature "actions_values" self
  = ActionValue.output_signature Policy_output_signature "states_values" self
  /\ ActionValue.output_signature Policy_output_signature "states_values" self
     = (Ok (SigSingleton (SigDict
              (map (fun '(name, spec) =>
                      (name, SigTensor {| sig_type := float_type;
                                          sig_shape := None :: map Some (shape spec) |}))
                   (actions_spec self)))),
        self).
Proof.
  split; [reflexivity|].
  unfold ActionValue.output_signature. cbn [String.eqb Ascii.eqb Bool.eqb andb].
  unfold bind, attr, lift, fmap, ret.
  rewrite map_result_ext with
    (g := fun item : string * TensorSpec =>
            Ok (let '(name, spec) := item in
                (name, SigTensor {| sig_type := float_type;
                                    sig_shape := None :: map Some (shape spec) |}))).
  - now rewrite map_result_total.
  - intros [name spec] _. reflexivity.
Qed.

End Declarations.

(** ** The abstract estimators and purity *)

Section Purity.
Import Core Contract.
Context {V : Type} `{Scalar V}.
Context {States Horizons Internals Auxiliaries Actions : Type}.

Variable Policy_input_signature : string -> M SignatureDict.
Variable Policy_output_signature : string -> M SignatureDict.

Let Class : Type := @ActionValue.Class V States Horizons Internals Auxiliaries Actions.

(** C6. On the class itself both estimators raise [NotImplementedError]
    for every input; neither returns a value. *)
Theorem abstract_estimators_raise
        (states : States) (horizons : Horizons) (internals : Internals)
        (auxiliaries : Auxiliaries) (actions : Actions) (self : Self) :
  ActionValue.self_actions_values (ActionValue.base (V := V))
    states horizons internals auxiliaries actions self
  = (Raise NotImplementedError, self)
  /\ ActionValue.self_all_actions_values (ActionValue.base (V := V) (Actions := Actions))
       states horizons internals auxiliaries self
     = (Raise NotImplementedError, self)
  /\ (forall values,
        fst (ActionValue.actions_values (V := V)
               states horizons internals auxiliaries actions self) <> Ok values)
  /\ (forall values,
        fst (ActionValue.all_actions_values (V := V)
               states horizons internals auxiliaries self) <> Ok values).
Proof.
  repeat split; intros values; discriminate.
Qed.

Lemma read_only_input_signature (function : string) :
  (forall f, read_only (Policy_input_signature f)) ->
  read_only (ActionValue.input_signature Policy_input_signature function).
Proof.
  intros Hparent. unfold ActionValue.input_signature.
  repeat match goal with
         | |- context [String.eqb ?a ?b] => destruct (String.eqb a b)
         end; auto with methods.
Qed.

Lemma read_only_output_signature (function : string) :
  (forall f, read_only (Policy_output_signature f)) ->
  read_only (ActionValue.output_signature Policy_output_signature function).
Proof.
  intros Hparent. unfold ActionValue.output_signature.
  repeat match goal with
         | |- context [String.eqb ?a ?b] => destruct (String.eqb a b)
         end; auto 7 with methods.
Qed.

(** C9. With an estimator and parent declarations that leave the object
    alone, every operation of the layer leaves the specifications and
    the distributions as they were, and invoked again on the same
    inputs it has the same outcome. *)
Theorem operations_are_pure (cls : Class) :
  read_only_class cls ->
  (forall f, read_only (Policy_input_signature f)) ->
  (forall f, read_only (Policy_output_signature f)) ->
  (forall function,
      pure_method (ActionValue.input_signature Policy_input_signature function))
  /\ (forall function,
         pure_method (ActionValue.output_signature Policy_output_signature function))
  /\ (forall (states : States) (horizons : Horizons) (internals : Internals)
             (auxiliaries : Auxiliaries) (actions : Actions),
         pure_method (ActionValue.actions_value cls states horizons internals
                                                auxiliaries actions))
  /\ (forall (states : States) (horizons : Horizons) (internals : Internals)
             (auxiliaries : Auxiliaries) (actions : Actions),
         pure_method (ActionValue.actions_values (V := V) states horizons internals
                                                 auxiliaries actions))
  /\ (forall (states : States) (horizons : Horizons) (internals : Internals)
             (auxiliaries : Auxiliaries),
         pure_method (ActionValue.all_actions_values (V := V) states horizons internals
                                                     auxiliaries))
  /\ (forall (states : States) (horizons : Horizons) (internals : Internals)
             (auxiliaries : Auxiliaries),
         pure_method (ActionValue.states_value cls states horizons internals auxiliaries))
  /\ (forall (states : States) (horizons : Horizons) (internals : Internals)
             (auxiliaries : Auxiliaries),
         pure_method (ActionValue.states_values cls states horizons internals
                                                auxiliaries)).
Proof.
  intros [Hactions Hall] Hin Hout.
  assert (Hstates : forall states horizons internals auxiliaries,
             read_only (ActionValue.states_values cls states horizons internals
                                                  auxiliaries)).
  { intros. unfold ActionValue.states_values. auto with methods. }
  repeat split;
    try (apply read_only_repeatable);
    try (now apply read_only_input_signature);
    try (now apply read_only_output_signature);
    try (now apply read_only_raise);
    try (now apply Hstates).
  all: unfold ActionValue.actions_value, ActionValue.states_value; auto 8 with methods.
Qed.

End Purity.

(** ** Max-reduction over the last axis *)

Section ReductionLaws.
Import Core Contract.
Context {V : Type} `{ScalarOrder V}.

Lemma vle_refl (a : V) : vle a a = true.
Proof. destruct (vle_total a a); assumption. Qed.

Lemma vmax_upper_l (a b : V) : vle a (TF.vmax a b) = true.
Proof.
  unfold TF.vmax. destruct (vle b a) eqn:Hba.
  - apply vle_refl.
  - destruct (vle_total a b) as [Hab|Hab]; [exact Hab|congruence].
Qed.

Lemma vmax_upper_r (a b : V) : vle b (TF.vmax a b) = true.
Proof.
  unfold TF.vmax. destruct (vle b a) eqn:Hba; [exact Hba|apply vle_refl].
Qed.

Lemma fold_vmax_in (xs : list V) (x : V) : In (fold_left TF.vmax xs x) (x :: xs).
Proof.
  revert x. induction xs as [|y xs IH]; intros x; simpl; [now left|].
  destruct (IH (TF.vmax x y)) as [Hhd|Htl].
  - unfold TF.vmax in Hhd at 1. destruct (vle y x); auto.
  - auto.
Qed.

Lemma fold_vmax_grows (xs : list V) (x : V) : vle x (fold_left TF.vmax xs x) = true.
Proof.
  revert x. induction xs as [|y xs IH]; intros x; simpl; [apply vle_refl|].
  eapply vle_trans; [apply (vmax_upper_l x y)|apply IH].
Qed.

Lemma fold_vmax_upper (xs : list V) (x y : V) :
  In y (x :: xs) -> vle y (fold_left TF.vmax xs x) = true.
Proof.
  revert x. induction xs as [|z xs IH]; intros x Hy.
  - destruct Hy as [<-|[]]. apply vle_refl.
  - simpl. destruct Hy as [<-|[<-|Hy]].
    + eapply vle_trans; [apply (vmax_upper_l x z)|apply fold_vmax_grows].
    + eapply vle_trans; [apply (vmax_upper_r x z)|apply fold_vmax_grows].
    + apply IH. now right.
Qed.

Lemma max_of_in (xs : list V) : xs <> [] -> In (TF.max_of xs) xs.
Proof.
  destruct xs as [|x xs]; [congruence|]. intros _. apply fold_vmax_in.
Qed.

Lemma max_of_upper (xs : list V) (y : V) : In y xs -> vle y (TF.max_of xs) = true.
Proof.
  destruct xs as [|x xs]; [contradiction|]. apply fold_vmax_upper.
Qed.

End ReductionLaws.

Section Slices.
Context {A : Type}.

Lemma numel_app (xs ys : list nat) : TF.numel (xs ++ ys) = TF.numel xs * TF.numel ys.
Proof.
  induction xs as [|x xs IH]; simpl; [lia|]. rewrite IH. lia.
Qed.

Lemma shape_of_rank2 (sh : list nat) :
  2 <= length sh -> exists b s n, sh = b :: s ++ [n].
Proof.
  destruct sh as [|b rest]; simpl; [lia|]. intros Hlen.
  assert (Hrest : rest <> []) by (destruct rest; simpl in *; [lia|congruence]).
  exists b, (removelast rest), (last rest 0).
  f_equal. now apply app_removelast_last.
Qed.

Lemma rows_length (n count : nat) (xs : list A) : length (TF.rows n count xs) = count.
Proof. unfold TF.rows. now rewrite length_map, length_seq. Qed.

Lemma rows_nth (n count j : nat) (xs : list A) :
  j < count -> nth j (TF.rows n count xs) [] = firstn n (skipn (j * n) xs).
Proof.
  intros Hj. unfold TF.rows.
  set (f := fun j => firstn n (skipn (j * n) xs)).
  rewrite nth_indep with (d' := f 0) by (now rewrite length_map, length_seq).
  rewrite map_nth, seq_nth by exact Hj. reflexivity.
Qed.

Lemma slice_entry (n j k : nat) (xs : list A) (d : A) :
  k < n -> nth k (firstn n (skipn (j * n) xs)) d = nth (j * n + k) xs d.
Proof.
  intros Hk. rewrite nth_firstn.
  destruct (Nat.ltb_spec k n); [|lia]. apply nth_skipn.
Qed.

Lemma slice_length (n j : nat) (xs : list A) :
  (j + 1) * n <= length xs -> length (firstn n (skipn (j * n) xs)) = n.
Proof.
  intros Hlen. rewrite length_firstn, length_skipn. lia.
Qed.

End Slices.

Section StatesValues.
Import Core Contract.
Context {V : Type} `{ScalarOrder V}.
Context {States Horizons Internals Auxiliaries Actions : Type}.

Let Class : Type := @ActionValue.Class V States Horizons Internals Auxiliaries Actions.

Lemma reduce_max_reduces (table : TF.Tensor V) :
  TF.well_formed table -> 2 <= TF.rank table ->
  exists reduced, TF.reduce_max table = Ok reduced /\ reduces table reduced.
Proof.
  intros Hwf Hrank.
  destruct (shape_of_rank2 (TF.shape table) Hrank) as (b & s & n & Hshape).
  exists {| TF.shape := removelast (TF.shape table);
            TF.data := map TF.max_of
                         (TF.rows (last (TF.shape table) 0)
                                  (TF.numel (removelast (TF.shape table)))
                                  (TF.data table)) |}.
  split.
  { unfold TF.reduce_max. destruct (TF.shape table); [discriminate|reflexivity]. }
  unfold reduces, batch, TF.well_formed in *. cbn [TF.shape TF.data].
  rewrite Hshape in *.
  change (b :: s ++ [n]) with ((b :: s) ++ [n]) in *.
  rewrite removelast_last, last_last.
  rewrite numel_app in Hwf.
  replace (TF.numel [n]) with n in Hwf by (simpl; lia).
  split; [reflexivity|]. split; [reflexivity|]. split.
  { now rewrite length_map, rows_length. }
  intros j Hj. unfold maximum_of_slice. cbn [TF.data].
  pose proof (map_nth TF.max_of (TF.rows n (TF.numel (b :: s)) (TF.data table)) [] j) as E.
  cbn [TF.max_of] in E. rewrite E, rows_nth by assumption. clear E.
  set (row := firstn n (skipn (j * n) (TF.data table))).
  assert (Hlen : length row = n) by (apply slice_length; nia).
  split; [|split].
  - intros k Hk.
    rewrite <- slice_entry by assumption.
    apply max_of_upper, nth_In. fold row. lia.
  - intros Hn.
    assert (Hin : In (TF.max_of row) row).
    { apply max_of_in. intros Hnil. rewrite Hnil in Hlen. simpl in Hlen. lia. }
    destruct (In_nth row (TF.max_of row) lowest Hin) as (k & Hk & Hnth).
    exists k. split; [lia|].
    rewrite <- Hnth. unfold row. apply slice_entry. lia.
  - intros Hn. destruct row; [reflexivity|]. simpl in Hlen. lia.
Qed.

Lemma fmap_reduce_max (tables : Dict (TF.Tensor V)) :
  Forall (fun '(_, table) => TF.well_formed table /\ 2 <= TF.rank table) tables ->
  exists vals,
    fmap (fun action_values => TF.reduce_max action_values) tables = Ok vals
    /\ Forall2 (fun '(name, table) '(name', reduced) =>
                  name' = name /\ reduces table reduced)
               tables vals.
Proof.
  induction 1 as [|[name table] tables [Hwf Hrank] _ (vals & Hvals & Hall)].
  - exists []. split; [reflexivity|constructor].
  - destruct (reduce_max_reduces Hwf Hrank) as (reduced & Hred & Hlaw).
    exists ((name, reduced) :: vals). split.
    + unfold fmap in *. simpl. rewrite Hred. simpl. now rewrite Hvals.
    + constructor; auto.
Qed.

(** C1. Whenever [all_actions_values] returns, for every component, a
    table with a batch axis and a choice axis, [states_values] returns
    the same components in the same order, each the table max-reduced
    over its last axis: the choice axis is removed, the batch axis kept,
    and every entry, for every batch element, is the maximum of its
    slice of the table. *)
Theorem states_values_reduction_law (cls : Class)
        (states : States) (horizons : Horizons) (internals : Internals)
        (auxiliaries : Auxiliaries) (self self' : Self) (tables : Dict (TF.Tensor V)) :
  ActionValue.self_all_actions_values cls states horizons internals auxiliaries self
  = (Ok tables, self') ->
  Forall (fun '(_, table) => TF.well_formed table /\ 2 <= TF.rank table) tables ->
  exists vals,
    ActionValue.states_values cls states horizons internals auxiliaries self
    = (Ok vals, self')
    /\ Forall2 (fun '(name, table) '(name', reduced) =>
                  name' = name /\ reduces table reduced)
               tables vals.
Proof.
  intros Hall Htables.
  destruct (fmap_reduce_max Htables) as (vals & Hvals & Hlaw).
  exists vals. split; [|exact Hlaw].
  unfold ActionValue.states_values, bind, lift.
  now rewrite Hall, Hvals.
Qed.

End StatesValues.

(** ** The greedy joint action *)

Section Greedy.
Import Core Contract.
Context {V : Type} `{Scalar V}.

Lemma argmax_from_scan (xs pre : list V) (best : V) (besti i : nat) :
  length pre = i -> besti < i -> nth besti pre lowest = best ->
  TF.argmax_from best besti i xs < i + length xs
  /\ nth (TF.argmax_from best besti i xs) (pre ++ xs) lowest = fold_left TF.vmax xs best.
Proof.
  revert pre best besti i.
  induction xs as [|x xs IH]; intros pre best besti i Hlen Hbesti Hbest; simpl.
  - split; [lia|]. now rewrite app_nil_r.
  - replace (pre ++ x :: xs) with ((pre ++ [x]) ++ xs) by (now rewrite <- app_assoc).
    destruct (vle x best) eqn:Hx.
    + replace (TF.vmax best x) with best by (unfold TF.vmax; now rewrite Hx).
      destruct (IH (pre ++ [x]) best besti (S i)) as [Hlt Hnth].
      * rewrite length_app. simpl. lia.
      * lia.
      * rewrite app_nth1 by lia. exact Hbest.
      * split; [lia|exact Hnth].
    + replace (TF.vmax best x) with x by (unfold TF.vmax; now rewrite Hx).
      destruct (IH (pre ++ [x]) x i (S i)) as [Hlt Hnth].
      * rewrite length_app. simpl. lia.
      * lia.
      * rewrite app_nth2 by lia. now replace (i - length pre) with 0 by lia.
      * split; [lia|exact Hnth].
Qed.

Lemma argmax_of_bound (xs : list V) : xs <> [] -> TF.argmax_of xs < length xs.
Proof.
  destruct xs as [|x xs]; [congruence|]. intros _.
  destruct (argmax_from_scan xs [x] (besti := 0) eq_refl (Nat.lt_0_1) eq_refl) as [Hlt _].
  exact Hlt.
Qed.

Lemma argmax_of_max (xs : list V) : nth (TF.argmax_of xs) xs lowest = TF.max_of xs.
Proof.
  destruct xs as [|x xs]; [reflexivity|].
  destruct (argmax_from_scan xs [x] (besti := 0) eq_refl (Nat.lt_0_1) eq_refl) as [_ Hnth].
  exact Hnth.
Qed.

Lemma take_argmax_rows (slices : list (list V)) :
  map (fun '(row, i) => nth i row lowest) (combine slices (map TF.argmax_of slices))
  = map TF.max_of slices.
Proof.
  induction slices as [|row slices IH]; simpl; [reflexivity|].
  now rewrite argmax_of_max, IH.
Qed.

Lemma same_dims_refl (s : list nat) : TF.same_dims s s = true.
Proof. unfold TF.same_dims. destruct (list_eq_dec Nat.eq_dec s s); congruence. Qed.

(** Selecting the greedy positions from a table is max-reducing it. *)
Lemma take_argmax (table : TF.Tensor V) (action : TF.Tensor nat) :
  TF.argmax table = Ok action ->
  TF.take_along_last table action = TF.reduce_max table.
Proof.
  unfold TF.argmax, TF.take_along_last, TF.reduce_max.
  destruct (TF.shape table) as [|d ds] eqn:Hshape; [discriminate|].
  set (s := removelast (d :: ds)). set (n := last (d :: ds) 0).
  destruct (Nat.eqb_spec n 0) as [|Hn]; [discriminate|].
  intros Harg. injection Harg as <-. cbn [TF.shape TF.data].
  rewrite same_dims_refl, length_map, rows_length, Nat.eqb_refl. cbn [andb].
  replace (forallb (fun i => i <? n)
                   (map TF.argmax_of (TF.rows n (TF.numel s) (TF.data table))))
    with true.
  - now rewrite take_argmax_rows.
  - symmetry. apply forallb_forall. intros i Hi.
    apply in_map_iff in Hi. destruct Hi as (row & <- & Hrow).
    apply Nat.ltb_lt.
    unfold TF.rows in Hrow. apply in_map_iff in Hrow. destruct Hrow as (j & <- & _).
    destruct (firstn n (skipn (j * n) (TF.data table))) as [|x xs] eqn:Hslice.
    + simpl. lia.
    + assert (Hle : length (x :: xs) <= n)
        by (rewrite <- Hslice; apply firstn_le_length).
      assert (Hlt : TF.argmax_of (x :: xs) < length (x :: xs))
        by (apply argmax_of_bound; discriminate).
      lia.
Qed.

Lemma getitem_fresh {A : Type} (d : Dict A) (k name : string) (v : A) :
  k <> name -> getitem ((k, v) :: d) name = getitem d name.
Proof.
  intros Hk. simpl. now apply String.eqb_neq in Hk as ->.
Qed.

Lemma getitem_head {A : Type} (d : Dict A) (k : string) (v : A) :
  getitem ((k, v) :: d) k = Ok v.
Proof. simpl. now rewrite String.eqb_refl. Qed.

Lemma fmap_zip_fresh {A B C : Type} (function : A -> C -> result B)
      (d : Dict A) (zip_values : Dict C) (k : string) (z : C) :
  ~ In k (keys d) ->
  fmap_zip function d ((k, z) :: zip_values) = fmap_zip function d zip_values.
Proof.
  intros Hk. unfold fmap_zip. apply map_result_ext.
  intros [name value] Hin. rewrite getitem_fresh; [reflexivity|].
  intros ->. apply Hk. unfold keys. apply in_map_iff. now exists (name, value).
Qed.

Lemma take_greedy (tables : Dict (TF.Tensor V)) (actions : Dict (TF.Tensor nat)) :
  NoDup (keys tables) ->
  greedy_action tables = Ok actions ->
  fmap_zip (fun table action => TF.take_along_last table action) tables actions
  = fmap (fun action_values => TF.reduce_max action_values) tables.
Proof.
  revert actions.
  induction tables as [|[name table] tables IH]; intros actions Hnodup Hgreedy.
  - reflexivity.
  - unfold greedy_action, fmap in Hgreedy. simpl in Hgreedy.
    destruct (TF.argmax table) as [action|e] eqn:Harg; simpl in Hgreedy; [|discriminate].
    destruct (map_result _ tables) as [rest|e] eqn:Hrest; simpl in Hgreedy; [|discriminate].
    injection Hgreedy as <-.
    simpl in Hnodup. inversion Hnodup as [|? ? Hfresh Hnodup']; subst.
    specialize (IH rest Hnodup' Hrest).
    pose proof (@fmap_zip_fresh _ _ _ (fun t a => TF.take_along_last t a)
                                tables rest name action Hfresh) as Hskip.
    unfold fmap_zip, fmap in *.
    cbn [map_result]. rewrite getitem_head. cbn [result_bind].
    rewrite (take_argmax _ Harg), Hskip, IH. reflexivity.
Qed.

End Greedy.

(** ** Flattening *)

Section Flattening.
Import Core Contract.
Context {V : Type} `{Scalar V}.

Lemma reshape_inferred (value : TF.Tensor V) (b k : nat) :
  0 < k -> TF.numel (TF.shape value) = b * k ->
  TF.reshape value [(-1)%Z; Z.of_nat k]
  = Ok {| TF.shape := [b; k]; TF.data := TF.data value |}.
Proof.
  intros Hk Hnumel. unfold TF.reshape, TF.infer_shape.
  assert (Hunknown : TF.unknown_dim (Z.of_nat k) = false)
    by (unfold TF.unknown_dim; apply Z.eqb_neq; lia).
  assert (Hknown : TF.known_product [(-1)%Z; Z.of_nat k] = k).
  { unfold TF.known_product. cbn [filter]. rewrite Hunknown.
    cbn [TF.unknown_dim Z.eqb Pos.eqb negb fold_right]. lia. }
  rewrite Hknown. cbn [existsb filter]. rewrite Hunknown.
  replace (Z.of_nat k <? -1)%Z with false by (symmetry; apply Z.ltb_ge; lia).
  cbn [TF.unknown_dim Z.eqb Pos.eqb Z.ltb Z.compare Pos.compare Pos.compare_cont
       orb length map].
  destruct (Nat.eqb_spec k 0) as [|_]; [lia|].
  rewrite Hnumel, Nat.Div0.mod_mul, Nat.div_mul by lia.
  cbn [Nat.eqb result_bind]. rewrite Hunknown, Nat2Z.id. reflexivity.
Qed.

Lemma reshape_stated (value : TF.Tensor V) (b k : nat) :
  TF.numel (TF.shape value) = b * k ->
  TF.reshape value [Z.of_nat b; Z.of_nat k]
  = Ok {| TF.shape := [b; k]; TF.data := TF.data value |}.
Proof.
  intros Hnumel. unfold TF.reshape, TF.infer_shape.
  assert (Hunknown : forall m, TF.unknown_dim (Z.of_nat m) = false)
    by (intros m; unfold TF.unknown_dim; apply Z.eqb_neq; lia).
  assert (Hlow : forall m, (Z.of_nat m <? -1)%Z = false)
    by (intros m; apply Z.ltb_ge; lia).
  assert (Hknown : TF.known_product [Z.of_nat b; Z.of_nat k] = b * k).
  { unfold TF.known_product. cbn [filter]. rewrite !Hunknown.
    cbn [negb fold_right]. lia. }
  rewrite Hknown. cbn [existsb filter]. rewrite !Hunknown, !Hlow.
  cbn [orb length map]. rewrite Hnumel, Nat.eqb_refl, !Nat2Z.id. reflexivity.
Qed.

Lemma getitem_fresh_all {A B : Type} (f : string -> B -> result A)
      (d : Dict B) (k : string) (v : A) (g : A -> B -> result A) (vals : Dict A) :
  ~ In k (keys d) ->
  map_result (fun '(name, spec) =>
                result_bind (getitem ((k, v) :: vals) name) (fun value => g value spec)) d
  = map_result (fun '(name, spec) =>
                  result_bind (getitem vals name) (fun value => g value spec)) d.
Proof.
  intros Hk. apply map_result_ext.
  intros [name spec] Hin. rewrite getitem_fresh; [reflexivity|].
  intros ->. apply Hk. unfold keys. apply in_map_iff. now exists (name, spec).
Qed.

Lemma conforms_keys (b : nat) (actions_spec : Dict TensorSpec) (vals : Dict (TF.Tensor V)) :
  conforms b actions_spec vals -> keys vals = keys actions_spec.
Proof.
  induction 1 as [|[name spec] [name' value] specs vals (-> & _) _ IH]; simpl;
    [reflexivity|now rewrite IH].
Qed.

(** On conforming values the code (names of the values, [-1]) and the
    specification (names of the actions specification, stated batch
    size) cut the same pieces. *)
Lemma flatten_pieces (b : nat) (actions_spec : Dict TensorSpec) (vals : Dict (TF.Tensor V)) :
  conforms b actions_spec vals ->
  valid_actions_spec actions_spec ->
  exists reshaped,
    fmap_zip (fun value spec => TF.reshape value [(-1)%Z; Z.of_nat (size spec)])
             vals actions_spec = Ok reshaped
    /\ map_result
         (fun '(name, spec) =>
            result_bind (getitem vals name) (fun value =>
            TF.reshape value [Z.of_nat (batch value); Z.of_nat (size spec)]))
         actions_spec = Ok (values reshaped)
    /\ Forall2 (fun '(_, spec) piece =>
                  TF.shape piece = [b; size spec] /\ TF.well_formed piece)
               actions_spec (values reshaped).
Proof.
  intros Hconf [Hnodup Hpos]. pose proof (conforms_keys Hconf) as Hkeys.
  induction Hconf as [|[name spec] [name' value] specs vals (-> & Hshape & Hwf) Hconf IH].
  - exists []. repeat split; constructor.
  - simpl in Hnodup, Hkeys. inversion Hnodup as [|? ? Hfresh Hnodup']; subst.
    inversion Hpos as [|? ? Hsize Hpos']; subst.
    injection Hkeys as Hkeys.
    destruct (IH Hnodup' Hpos' Hkeys) as (reshaped & Hcode & Hspec & Hpieces).
    assert (Hnumel : TF.numel (TF.shape value) = b * size spec)
      by (rewrite Hshape; reflexivity).
    exists ((name, {| TF.shape := [b; size spec]; TF.data := TF.data value |}) :: reshaped).
    split; [|split].
    + pose proof (@fmap_zip_fresh _ _ _
                    (fun value spec => TF.reshape value [(-1)%Z; Z.of_nat (size spec)])
                    vals specs name spec) as Hskip.
      unfold fmap_zip in *. cbn [map_result].
      rewrite getitem_head. cbn [result_bind].
      rewrite (@reshape_inferred value b (size spec) Hsize Hnumel). cbn [result_bind].
      rewrite Hskip, Hcode by (now rewrite Hkeys). reflexivity.
    + cbn [map_result]. rewrite getitem_head. cbn [result_bind].
      unfold batch at 1. rewrite Hshape at 1. cbn [hd].
      rewrite (@reshape_stated value b (size spec) Hnumel). cbn [result_bind].
      rewrite (@getitem_fresh_all _ _ (fun _ _ => Raise ValueError) specs name value
                 (fun value spec =>
                    TF.reshape value [Z.of_nat (batch value); Z.of_nat (size spec)])
                 vals Hfresh).
      rewrite Hspec. reflexivity.
    + simpl. constructor; [|exact Hpieces].
      split; [reflexivity|]. unfold TF.well_formed in *. cbn [TF.shape TF.data].
      rewrite Hwf, Hnumel. unfold TF.numel. cbn [fold_right].
      now rewrite Nat.mul_1_r.
Qed.

End Flattening.

Section Concatenation.
Import Core Contract.
Context {V : Type}.

Lemma piece_block (b k : nat) (piece : TF.Tensor V) :
  TF.shape piece = [b; k] -> TF.block 1 piece = k.
Proof.
  intros Hshape. unfold TF.block. rewrite Hshape. simpl. lia.
Qed.

Lemma pieces_width (b : nat) (actions_spec : Dict TensorSpec) (pieces : list (TF.Tensor V)) :
  Forall2 (fun '(_, spec) piece => TF.shape piece = [b; size spec] /\ TF.well_formed piece)
          actions_spec pieces ->
  list_sum (map (fun t => nth 1 (TF.shape t) 0) pieces) = total_size actions_spec.
Proof.
  unfold total_size, values.
  induction 1 as [|[name spec] piece specs pieces [Hshape _] _ IH]; simpl; [reflexivity|].
  now rewrite Hshape, IH.
Qed.

Lemma pieces_agree (b : nat) (actions_spec : Dict TensorSpec) (pieces : list (TF.Tensor V))
      (k0 : nat) :
  Forall2 (fun '(_, spec) piece => TF.shape piece = [b; size spec] /\ TF.well_formed piece)
          actions_spec pieces ->
  forallb (fun t => TF.agree_except 1 [b; k0] (TF.shape t)) pieces = true.
Proof.
  induction 1 as [|[name spec] piece specs pieces [Hshape _] _ IH]; simpl; [reflexivity|].
  rewrite Hshape, IH. unfold TF.agree_except. simpl.
  now rewrite !same_dims_refl.
Qed.

Lemma pieces_row_length (b o : nat) (actions_spec : Dict TensorSpec)
      (pieces : list (TF.Tensor V)) :
  o < b ->
  Forall2 (fun '(_, spec) piece => TF.shape piece = [b; size spec] /\ TF.well_formed piece)
          actions_spec pieces ->
  length (flat_map
            (fun t => firstn (TF.block 1 t) (skipn (o * TF.block 1 t) (TF.data t)))
            pieces)
  = total_size actions_spec.
Proof.
  intros Ho. unfold total_size, values.
  induction 1 as [|[name spec] piece specs pieces [Hshape Hwf] _ IH]; simpl; [reflexivity|].
  rewrite length_app, IH, (@piece_block b (size spec) piece Hshape). f_equal.
  apply slice_length. unfold TF.well_formed in Hwf. rewrite Hwf, Hshape.
  unfold TF.numel. cbn [fold_right]. nia.
Qed.

Lemma concat_pieces (b : nat) (actions_spec : Dict TensorSpec) (pieces : list (TF.Tensor V)) :
  actions_spec <> [] ->
  Forall2 (fun '(_, spec) piece => TF.shape piece = [b; size spec] /\ TF.well_formed piece)
          actions_spec pieces ->
  exists t, TF.concat pieces 1 = Ok t
            /\ TF.shape t = [b; total_size actions_spec]
            /\ TF.well_formed t.
Proof.
  intros Hne Hpieces.
  pose proof (@pieces_width b actions_spec pieces Hpieces) as Hwidth.
  destruct Hpieces as [|[name spec] piece specs pieces [Hshape Hwf] Hrest]; [congruence|].
  assert (Hall : Forall2 (fun '(_, spec) piece =>
                            TF.shape piece = [b; size spec] /\ TF.well_formed piece)
                         ((name, spec) :: specs) (piece :: pieces))
    by (constructor; auto).
  unfold TF.concat. rewrite Hshape.
  rewrite (@pieces_agree b _ _ (size spec) Hall).
  eexists. split; [reflexivity|]. split.
  - cbn [TF.shape]. rewrite Hwidth. reflexivity.
  - unfold TF.well_formed. cbn [TF.shape TF.data].
    rewrite Hwidth. cbn [firstn skipn app].
    rewrite flat_map_constant_length with (c := total_size ((name, spec) :: specs)).
    + rewrite length_seq. unfold TF.numel. cbn [fold_right]. lia.
    + intros o Ho. apply in_seq in Ho.
      apply (@pieces_row_length b o); [|exact Hall].
      unfold TF.numel in Ho. cbn [fold_right] in Ho. lia.
Qed.

End Concatenation.

Section Widths.
Import Core Contract.
Context {V : Type}.

Lemma reshape_columns (value piece : TF.Tensor V) (k : nat) :
  TF.reshape value [(-1)%Z; Z.of_nat k] = Ok piece ->
  exists q, TF.shape piece = [q; k].
Proof.
  unfold TF.reshape, TF.infer_shape.
  assert (Hunknown : TF.unknown_dim (Z.of_nat k) = false)
    by (unfold TF.unknown_dim; apply Z.eqb_neq; lia).
  cbn [existsb filter]. rewrite Hunknown.
  replace (Z.of_nat k <? -1)%Z with false by (symmetry; apply Z.ltb_ge; lia).
  cbn [TF.unknown_dim Z.eqb Pos.eqb Z.ltb Z.compare Pos.compare Pos.compare_cont
       orb length map].
  destruct (_ =? 0); [discriminate|].
  destruct (_ mod _ =? 0); [|discriminate].
  cbn [result_bind]. intros [= <-]. cbn [TF.shape].
  rewrite Hunknown, Nat2Z.id. now eexists.
Qed.

Lemma fmap_zip_columns (vals : Dict (TF.Tensor V)) (actions_spec : Dict TensorSpec)
      (reshaped : Dict (TF.Tensor V)) :
  keys vals = keys actions_spec ->
  NoDup (keys actions_spec) ->
  fmap_zip (fun value spec => TF.reshape value [(-1)%Z; Z.of_nat (size spec)])
           vals actions_spec = Ok reshaped ->
  Forall2 (fun '(_, spec) piece => exists q, TF.shape piece = [q; size spec])
          actions_spec (values reshaped).
Proof.
  revert vals reshaped.
  induction actions_spec as [|[name spec] specs IH]; intros vals reshaped Hkeys Hnodup Hzip.
  - destruct vals; [|discriminate]. injection Hzip as <-. constructor.
  - destruct vals as [|[name' value] vals]; [discriminate|].
    simpl in Hkeys. injection Hkeys as -> Hkeys.
    simpl in Hnodup. inversion Hnodup as [|? ? Hfresh Hnodup']; subst.
    pose proof (@fmap_zip_fresh _ _ _
                  (fun value spec => TF.reshape value [(-1)%Z; Z.of_nat (size spec)])
                  vals specs name spec) as Hskip.
    unfold fmap_zip in *. cbn [map_result] in Hzip.
    rewrite getitem_head in Hzip. cbn [result_bind] in Hzip.
    destruct (TF.reshape value _) as [piece|e] eqn:Hpiece; [|discriminate].
    cbn [result_bind] in Hzip. rewrite Hskip in Hzip by (now rewrite Hkeys).
    destruct (map_result _ vals) as [rest|e] eqn:Hrest; [|discriminate].
    injection Hzip as <-. simpl. constructor.
    + eapply reshape_columns; eassumption.
    + eapply IH; eassumption.
Qed.

Lemma agreeing_widths (actions_spec : Dict TensorSpec) (pieces : list (TF.Tensor V)) :
  Forall2 (fun '(_, spec) piece => exists q, TF.shape piece = [q; size spec])
          actions_spec pieces ->
  list_sum (map (fun t => nth 1 (TF.shape t) 0) pieces) = total_size actions_spec.
Proof.
  unfold total_size, values.
  induction 1 as [|[name spec] piece specs pieces [q Hshape] _ IH]; simpl; [reflexivity|].
  now rewrite Hshape, IH.
Qed.

Lemma concat_columns (actions_spec : Dict TensorSpec) (pieces : list (TF.Tensor V))
      (t : TF.Tensor V) :
  Forall2 (fun '(_, spec) piece => exists q, TF.shape piece = [q; size spec])
          actions_spec pieces ->
  TF.concat pieces 1 = Ok t ->
  exists q, TF.shape t = [q; total_size actions_spec].
Proof.
  intros Hpieces Hconcat.
  pose proof (@agreeing_widths actions_spec pieces Hpieces) as Hwidth.
  destruct Hpieces as [|[name spec] piece specs pieces [q Hshape] _]; [discriminate|].
  unfold TF.concat in Hconcat. rewrite Hshape in Hconcat.
  destruct (forallb _ _); [|discriminate].
  injection Hconcat as <-. exists q. cbn [TF.shape firstn skipn app].
  f_equal. f_equal. exact Hwidth.
Qed.

(** Whatever the shapes of the values: an output of the flattening has
    the width of the specification. *)
Lemma flatten_run_width (m : M (Dict (TF.Tensor V))) (self self' self'' : Self)
      (vals : Dict (TF.Tensor V)) (t : TF.Tensor V) :
  m self = (Ok vals, self') ->
  keys vals = keys (actions_spec self') ->
  NoDup (keys (actions_spec self')) ->
  bind m (fun values =>
  bind (attr actions_spec) (fun actions_spec =>
  bind (lift (fmap_zip
                (fun (value : TF.Tensor V) (spec : TensorSpec) =>
                   TF.reshape value [(-1)%Z; Z.of_nat (size spec)])
                values actions_spec)) (fun reshaped =>
  lift (TF.concat (Core.values reshaped) 1)))) self
  = (Ok t, self'') ->
  exists q, TF.shape t = [q; total_size (actions_spec self')].
Proof.
  intros Hm Hkeys Hnodup. unfold bind, attr, lift. rewrite Hm.
  destruct (fmap_zip _ vals (actions_spec self')) as [reshaped|e] eqn:Hzip; [|discriminate].
  intros [= Hconcat _].
  eapply concat_columns; [|exact Hconcat].
  eapply fmap_zip_columns; eassumption.
Qed.

Lemma fmap_keys {A B : Type} (function : A -> result B) (d : Dict A) (d' : Dict B) :
  fmap function d = Ok d' -> keys d' = keys d.
Proof.
  revert d'. unfold fmap.
  induction d as [|[name value] d IH]; intros d' Hmap; simpl in Hmap.
  - now injection Hmap as <-.
  - destruct (function value); [|discriminate]. simpl in Hmap.
    destruct (map_result _ d) as [rest|e]; [|discriminate].
    injection Hmap as <-. simpl. f_equal. now apply IH.
Qed.

End Widths.

(** ** [actions_value] and [states_value] *)

Section Values.
Import Core Contract.
Local Open Scope method_scope.
Context {V : Type} `{Scalar V}.
Context {States Horizons Internals Auxiliaries Actions : Type}.

Variable Policy_output_signature : string -> M SignatureDict.

Let Class : Type := @ActionValue.Class V States Horizons Internals Auxiliaries Actions.

(** The body the two operations share, after the call that supplies
    the per-component values. *)
Lemma flatten_run (m : M (Dict (TF.Tensor V))) (self self' : Self)
      (vals : Dict (TF.Tensor V)) (b : nat) :
  m self = (Ok vals, self') ->
  conforms b (actions_spec self') vals ->
  valid_actions_spec (actions_spec self') ->
  (values <- m ;;
   actions_spec <- attr actions_spec ;;
   reshaped <- lift (fmap_zip
                       (fun (value : TF.Tensor V) (spec : TensorSpec) =>
                          TF.reshape value [(-1)%Z; Z.of_nat (size spec)])
                       values actions_spec) ;;
   lift (TF.concat (Core.values reshaped) 1)) self
  = (flatten (actions_spec self') vals, self').
Proof.
  intros Hm Hconf Hvalid.
  destruct (flatten_pieces Hconf Hvalid) as (reshaped & Hcode & Hspec & _).
  unfold bind, attr, lift, flatten. now rewrite Hm, Hcode, Hspec.
Qed.

Lemma flatten_width (b : nat) (actions_spec : Dict TensorSpec) (vals : Dict (TF.Tensor V)) :
  conforms b actions_spec vals ->
  valid_actions_spec actions_spec ->
  actions_spec <> [] ->
  exists t, flatten actions_spec vals = Ok t
            /\ TF.shape t = [b; total_size actions_spec]
            /\ TF.well_formed t.
Proof.
  intros Hconf Hvalid Hne.
  destruct (flatten_pieces Hconf Hvalid) as (reshaped & _ & Hspec & Hpieces).
  destruct (@concat_pieces V b actions_spec (values reshaped) Hne Hpieces)
    as (t & Hconcat & Hshape & Hwf).
  exists t. unfold flatten. rewrite Hspec. simpl. auto.
Qed.

Lemma reduce_max_table (table : TF.Tensor V) (b n : nat) (s : list nat) :
  TF.shape table = b :: s ++ [n] ->
  TF.reduce_max table
  = Ok {| TF.shape := b :: s;
          TF.data := map TF.max_of (TF.rows n (TF.numel (b :: s)) (TF.data table)) |}.
Proof.
  intros Hshape. unfold TF.reduce_max. rewrite Hshape.
  change (b :: s ++ [n]) with ((b :: s) ++ [n]).
  now rewrite removelast_last, last_last.
Qed.

Lemma reduced_conforms (b : nat) (actions_spec : Dict TensorSpec)
      (tables : Dict (TF.Tensor V)) :
  tabulates b actions_spec tables ->
  exists vals,
    fmap (fun action_values => TF.reduce_max action_values) tables = Ok vals
    /\ conforms b actions_spec vals.
Proof.
  induction 1 as [|[name spec] [name' table] specs tables
                    (-> & (n & Hshape) & Hwf) _ (vals & Hvals & Hconf)].
  - exists []. split; [reflexivity|constructor].
  - eexists ((name, _) :: vals). unfold fmap in *. cbn [map_result].
    rewrite (@reduce_max_table table b n (shape spec) Hshape), Hvals.
    split; [reflexivity|].
    constructor; [|exact Hconf].
    split; [reflexivity|]. split; [reflexivity|].
    unfold TF.well_formed. cbn [TF.shape TF.data].
    now rewrite length_map, rows_length.
Qed.

(** The conforming case.  When [actions_values] returns per-component values as its
    output contract declares them, [actions_value] returns exactly these
    values, each reshaped to (batch, component size) and concatenated
    along the component axis in the order of the actions specification,
    and nothing else happens to the object. *)
Theorem actions_value_flattens (cls : Class)
        (states : States) (horizons : Horizons) (internals : Internals)
        (auxiliaries : Auxiliaries) (actions : Actions)
        (self self' : Self) (vals : Dict (TF.Tensor V)) (b : nat) :
  ActionValue.self_actions_values cls states horizons internals auxiliaries actions self
  = (Ok vals, self') ->
  conforms b (actions_spec self') vals ->
  valid_actions_spec (actions_spec self') ->
  ActionValue.actions_value cls states horizons internals auxiliaries actions self
  = (flatten (actions_spec self') vals, self').
Proof.
  intros Hcall Hconf Hvalid.
  exact (@flatten_run _ self self' vals b Hcall Hconf Hvalid).
Qed.

(** The conforming case.  When [states_values] returns per-component values as its output
    contract declares them, [states_value] returns exactly these values
    flattened as [actions_value] flattens: reshaped to (batch, component
    size) and concatenated in the order of the actions specification. *)
Theorem states_value_flattens (cls : Class)
        (states : States) (horizons : Horizons) (internals : Internals)
        (auxiliaries : Auxiliaries)
        (self self' : Self) (vals : Dict (TF.Tensor V)) (b : nat) :
  ActionValue.states_values cls states horizons internals auxiliaries self
  = (Ok vals, self') ->
  conforms b (actions_spec self') vals ->
  valid_actions_spec (actions_spec self') ->
  ActionValue.states_value cls states horizons internals auxiliaries self
  = (flatten (actions_spec self') vals, self').
Proof.
  intros Hcall Hconf Hvalid.
  exact (@flatten_run _ self self' vals b Hcall Hconf Hvalid).
Qed.

(** C4. The width of both flat outputs is the sum of the flattened
    sizes of all action components: both output contracts declare it,
    [actions_value] returns a (batch, width) tensor on values that
    conform to their contract, and [states_value] returns one on tables
    that carry a trailing choice axis, for a specification of one or
    more components and any batch size; and whatever the shapes of the
    values are, an output of either operation has this width. *)
Theorem value_width (cls : Class)
        (states : States) (horizons : Horizons) (internals : Internals)
        (auxiliaries : Auxiliaries) :
  (forall self,
      ActionValue.output_signature Policy_output_signature "actions_value" self
      = (Ok (SigSingleton (SigTensor
               {| sig_type := float_type;
                  sig_shape := [None; Some (total_size (actions_spec self))] |})),
         self)
      /\ ActionValue.output_signature Policy_output_signature "states_value" self
         = ActionValue.output_signature Policy_output_signature "actions_value" self)
  /\ (forall (actions : Actions) self self' vals b,
         ActionValue.self_actions_values cls states horizons internals auxiliaries
                                         actions self
         = (Ok vals, self') ->
         conforms b (actions_spec self') vals ->
         valid_actions_spec (actions_spec self') ->
         actions_spec self' <> [] ->
         exists t,
           ActionValue.actions_value cls states horizons internals auxiliaries actions self
           = (Ok t, self')
           /\ TF.shape t = [b; total_size (actions_spec self')]
           /\ TF.well_formed t)
  /\ (forall self self' tables b,
         ActionValue.self_all_actions_values cls states horizons internals auxiliaries self
         = (Ok tables, self') ->
         tabulates b (actions_spec self') tables ->
         valid_actions_spec (actions_spec self') ->
         actions_spec self' <> [] ->
         exists t,
           ActionValue.states_value cls states horizons internals auxiliaries self
           = (Ok t, self')
           /\ TF.shape t = [b; total_size (actions_spec self')]
           /\ TF.well_formed t)
  /\ (forall (actions : Actions) self self' self'' vals t,
         ActionValue.self_actions_values cls states horizons internals auxiliaries
                                         actions self
         = (Ok vals, self') ->
         keys vals = keys (actions_spec self') ->
         NoDup (keys (actions_spec self')) ->
         ActionValue.actions_value cls states horizons internals auxiliaries actions self
         = (Ok t, self'') ->
         exists q, TF.shape t = [q; total_size (actions_spec self')])
  /\ (forall self self' self'' tables t,
         ActionValue.self_all_actions_values cls states horizons internals auxiliaries self
         = (Ok tables, self') ->
         keys tables = keys (actions_spec self') ->
         NoDup (keys (actions_spec self')) ->
         ActionValue.states_value cls states horizons internals auxiliaries self
         = (Ok t, self'') ->
         exists q, TF.shape t = [q; total_size (actions_spec self')]).
Proof.
  split; [|split; [|split; [|split]]].
  4: { intros actions self self' self'' vals t Hcall Hkeys Hnodup Hrun.
       eapply flatten_run_width; eassumption. }
  4: { intros self self' self'' tables t Hcall Hkeys Hnodup Hrun.
       destruct (fmap (fun action_values => TF.reduce_max action_values) tables)
         as [vals|e] eqn:Hvals.
       - eapply flatten_run_width with (vals := vals); [| |exact Hnodup|exact Hrun].
         + unfold ActionValue.states_values, bind, lift. now rewrite Hcall, Hvals.
         + erewrite fmap_keys by exact Hvals. exact Hkeys.
       - unfold ActionValue.states_value, ActionValue.states_values, bind, lift in Hrun.
         rewrite Hcall, Hvals in Hrun. discriminate. }
  - intros self. split; reflexivity.
  - intros actions self self' vals b Hcall Hconf Hvalid Hne.
    destruct (flatten_width Hconf Hvalid Hne) as (t & Hflat & Hshape & Hwf).
    exists t. split; [|auto].
    rewrite <- Hflat.
    exact (@flatten_run _ self self' vals b Hcall Hconf Hvalid).
  - intros self self' tables b Hcall Htab Hvalid Hne.
    destruct (reduced_conforms Htab) as (vals & Hvals & Hconf).
    destruct (flatten_width Hconf Hvalid Hne) as (t & Hflat & Hshape & Hwf).
    exists t. split; [|auto].
    rewrite <- Hflat.
    apply (@flatten_run _ self self' vals b); [|exact Hconf|exact Hvalid].
    unfold ActionValue.states_values, bind, lift. now rewrite Hcall, Hvals.
Qed.

(** How a joint action of positions is handed to the estimator. *)
Variable discrete : Dict (TF.Tensor nat) -> Actions.

(** C5. For an estimator whose value of a joint action is the entry of
    its table of all values at that action, [states_value] is
    [actions_value] at the greedy joint action, the per-component argmax
    of [all_actions_values]. *)
Theorem greedy_consistency (cls : Class)
        (states : States) (horizons : Horizons) (internals : Internals)
        (auxiliaries : Auxiliaries)
        (self self' : Self) (tables : Dict (TF.Tensor V))
        (actions : Dict (TF.Tensor nat)) :
  consistent discrete cls ->
  ActionValue.self_all_actions_values cls states horizons internals auxiliaries self
  = (Ok tables, self') ->
  NoDup (keys tables) ->
  greedy_action tables = Ok actions ->
  ActionValue.states_value cls states horizons internals auxiliaries self
  = ActionValue.actions_value cls states horizons internals auxiliaries
                              (discrete actions) self.
Proof.
  intros Hcons Hcall Hnodup Hgreedy.
  unfold ActionValue.states_value, ActionValue.actions_value, ActionValue.states_values.
  unfold bind. rewrite Hcons. unfold bind, lift. rewrite Hcall.
  rewrite (@take_greedy V _ tables actions Hnodup Hgreedy).
  reflexivity.
Qed.

End Values.

(** ** The laws at the concrete policy *)

Section Instances.
Import Core Contract Example.
Local Open Scope string_scope.

#[export] Instance Z_ScalarOrder : @ScalarOrder Z Z_Scalar.
Proof.
  split; simpl.
  - intros a b. destruct (Z.leb_spec a b); [now left|right]. apply Z.leb_le. lia.
  - intros a b c Hab Hbc. apply Z.leb_le in Hab, Hbc. apply Z.leb_le. lia.
Qed.

Lemma policy_valid : valid_actions_spec (actions_spec policy).
Proof.
  split.
  - simpl. repeat constructor; simpl; intuition discriminate.
  - repeat constructor.
Qed.

Lemma reduced_conforming : conforms 2 (actions_spec policy) reduced.
Proof. repeat constructor. Qed.

Lemma tables_tabulated : tabulates 2 (actions_spec policy) tables.
Proof.
  constructor; [|constructor; [|constructor]].
  - split; [reflexivity|]. split; [now exists 3|reflexivity].
  - split; [reflexivity|]. split; [now exists 2|reflexivity].
Qed.

Lemma tables_distinct : NoDup (keys tables).
Proof. simpl. repeat constructor; simpl; intuition discriminate. Qed.

Lemma table_lookup_consistent : consistent (fun actions => actions) table_lookup.
Proof. intros states horizons internals auxiliaries actions self. reflexivity. Qed.

Lemma table_lookup_read_only : read_only_class table_lookup.
Proof. split; intros; intros self; reflexivity. Qed.

Example states_value_of_tables :
  ActionValue.states_value table_lookup tt tt tt tt policy
  = (Ok {| TF.shape := [2; 3]; TF.data := [5; 7; 8; -1; 9; 0]%Z |}, policy).
Proof. reflexivity. Qed.

Example greedy_of_tables : greedy_action tables = Ok greedy.
Proof. reflexivity. Qed.

Example base_states_value :
  ActionValue.states_value (ActionValue.base (V := Z) (Actions := unit)) tt tt tt tt policy
  = (Raise NotImplementedError, policy).
Proof. reflexivity. Qed.

Lemma states_values_reduction_law_witness :
  exists vals,
    ActionValue.states_values table_lookup tt tt tt tt policy = (Ok vals, policy)
    /\ Forall2 (fun '(name, table) '(name', reduced) =>
                  name' = name /\ reduces table reduced)
               tables vals.
Proof.
  apply (states_values_reduction_law table_lookup tt tt tt tt policy
           (self' := policy) (tables := tables)).
  - reflexivity.
  - repeat constructor; simpl; lia.
Defined.

Lemma actions_value_flattens_witness :
  ActionValue.actions_value table_lookup tt tt tt tt greedy policy
  = (flatten (actions_spec policy) reduced, policy).
Proof.
  apply (actions_value_flattens table_lookup tt tt tt tt greedy policy
           (self' := policy) (vals := reduced) (b := 2)).
  - reflexivity.
  - exact reduced_conforming.
  - exact policy_valid.
Defined.

Lemma states_value_flattens_witness :
  ActionValue.states_value table_lookup tt tt tt tt policy
  = (flatten (actions_spec policy) reduced, policy).
Proof.
  apply (states_value_flattens table_lookup tt tt tt tt policy
           (self' := policy) (vals := reduced) (b := 2)).
  - reflexivity.
  - exact reduced_conforming.
  - exact policy_valid.
Defined.

Lemma value_width_witness :
  (exists t, ActionValue.actions_value table_lookup tt tt tt tt greedy policy = (Ok t, policy)
             /\ TF.shape t = [2; total_size (actions_spec policy)]
             /\ TF.well_formed t)
  /\ (exists t, ActionValue.states_value table_lookup tt tt tt tt policy = (Ok t, policy)
                /\ TF.shape t = [2; total_size (actions_spec policy)]
                /\ TF.well_formed t).
Proof.
  destruct (value_width no_signature table_lookup tt tt tt tt)
    as (_ & Hactions & Hstates & _ & _).
  split.
  - apply (Hactions greedy policy policy reduced 2).
    + reflexivity.
    + exact reduced_conforming.
    + exact policy_valid.
    + discriminate.
  - apply (Hstates policy policy tables 2).
    + reflexivity.
    + exact tables_tabulated.
    + exact policy_valid.
    + discriminate.
Defined.

Lemma greedy_consistency_witness :
  ActionValue.states_value table_lookup tt tt tt tt policy
  = ActionValue.actions_value table_lookup tt tt tt tt greedy policy.
Proof.
  apply (greedy_consistency (discrete := fun actions => actions) (cls := table_lookup)
           tt tt tt tt policy (self' := policy) (tables := tables) (actions := greedy)).
  - exact table_lookup_consistent.
  - reflexivity.
  - exact tables_distinct.
  - reflexivity.
Defined.

Lemma signature_fallback_witness :
  ActionValue.input_signature no_signature "act" = no_signature "act"
  /\ ActionValue.output_signature no_signature "act" = no_signature "act".
Proof.
  apply (signature_fallback no_signature no_signature (function := "act"));
    discriminate.
Defined.

Lemma operations_are_pure_witness :
  pure_method (ActionValue.states_value table_lookup tt tt tt tt)
  /\ pure_method (ActionValue.actions_value table_lookup tt tt tt tt greedy).
Proof.
  destruct (operations_are_pure no_signature no_signature table_lookup_read_only
                                (fun f self => eq_refl) (fun f self => eq_refl))
    as (_ & _ & Hactions & _ & _ & Hstates & _).
  split; [apply Hstates|apply Hactions].
Defined.

End Instances.

(** * Further laws of the layer *)

(** ** Failures *)

Section Failures.
Import Core Contract.
Context {V : Type} `{Scalar V}.
Context {States Horizons Internals Auxiliaries Actions : Type}.

Let Class : Type := @ActionValue.Class V States Horizons Internals Auxiliaries Actions.

(** X1. An exception of the estimator is the exception of the operation
    built on it: [actions_value] raises what [actions_values] raises,
    [states_values] and [states_value] raise what [all_actions_values]
    raises, and the object is left as the estimator left it. *)
Theorem estimator_failure_propagates (cls : Class)
        (states : States) (horizons : Horizons) (internals : Internals)
        (auxiliaries : Auxiliaries) (actions : Actions) (self self' : Self) (e : exn) :
  (ActionValue.self_actions_values cls states horizons internals auxiliaries actions self
   = (Raise e, self') ->
   ActionValue.actions_value cls states horizons internals auxiliaries actions self
   = (Raise e, self'))
  /\ (ActionValue.self_all_actions_values cls states horizons internals auxiliaries self
      = (Raise e, self') ->
      ActionValue.states_values cls states horizons internals auxiliaries self
      = (Raise e, self')
      /\ ActionValue.states_value cls states horizons internals auxiliaries self
         = (Raise e, self')).
Proof.
  split.
  - intros Hcall. unfold ActionValue.actions_value, bind. now rewrite Hcall.
  - intros Hcall.
    unfold ActionValue.states_value, ActionValue.states_values, bind.
    now rewrite Hcall.
Qed.

(** Without a concrete subclass the three derived operations are as
    unusable as the estimators: each raises [NotImplementedError] for
    every input, whatever the specifications of the object. *)
Corollary derived_operations_need_a_subclass
        (states : States) (horizons : Horizons) (internals : Internals)
        (auxiliaries : Auxiliaries) (actions : Actions) (self : Self) :
  ActionValue.actions_value (ActionValue.base (V := V))
    states horizons internals auxiliaries actions self
  = (Raise NotImplementedError, self)
  /\ ActionValue.states_values (ActionValue.base (V := V) (Actions := Actions))
       states horizons internals auxiliaries self
     = (Raise NotImplementedError, self)
  /\ ActionValue.states_value (ActionValue.base (V := V) (Actions := Actions))
       states horizons internals auxiliaries self
     = (Raise NotImplementedError, self).
Proof. repeat split. Qed.

End Failures.

(** ** The contract of [all_actions_values] *)

Section TableContracts.
Import Core Contract Layout.
Local Open Scope string_scope.
Local Open Scope list_scope.

Variable Policy_output_signature : string -> M SignatureDict.

Lemma declared_tables (distributions : Dict Distribution)
      (items : list (string * SignatureDict)) :
  Forall2 (fun '(name, dist) '(name', declared) =>
             name' = name
             /\ distribution_output_signature dist "all_action_values"
                = Ok (SigSingleton declared))
          distributions items ->
  fmap (fun x => result_bind (distribution_output_signature x "all_action_values")
                             singleton)
       distributions
  = Ok items.
Proof.
  unfold fmap.
  induction 1 as [|[name dist] [name' declared] dists items [-> Hdist] _ IH]; simpl;
    [reflexivity|].
  rewrite Hdist. simpl. now rewrite IH.
Qed.

Lemma undeclared_table (before after : Dict Distribution) (name : string)
      (dist : Distribution) (e : exn) :
  Forall (fun '(_, d) => exists declared,
              distribution_output_signature d "all_action_values"
              = Ok (SigSingleton declared))
         before ->
  distribution_output_signature dist "all_action_values" = Raise e ->
  fmap (fun x => result_bind (distribution_output_signature x "all_action_values")
                             singleton)
       (before ++ (name, dist) :: after)
  = Raise e.
Proof.
  unfold fmap. intros Hbefore Hdist.
  induction Hbefore as [|[name' d] before [declared Hd] _ IH]; simpl.
  - now rewrite Hdist.
  - rewrite Hd. simpl. now rewrite IH.
Qed.

(** X2. The output contract of [all_actions_values] is assembled from
    the distributions: when every distribution answers the query
    [all_action_values] with a singleton contract, the declaration maps
    the names of the distributions, in their order, to these contracts;
    when one of them raises, after those before it have answered, the
    declaration raises the same exception.  The object is unchanged and
    the parent class is not consulted. *)
Theorem all_actions_values_contract (self : Self) :
  (forall items,
      Forall2 (fun '(name, dist) '(name', declared) =>
                 name' = name
                 /\ distribution_output_signature dist "all_action_values"
                    = Ok (SigSingleton declared))
              (distributions self) items ->
      ActionValue.output_signature Policy_output_signature "all_actions_values" self
      = (Ok (SigSingleton (SigDict items)), self))
  /\ (forall before after name dist e,
         distributions self = before ++ (name, dist) :: after ->
         Forall (fun '(_, d) => exists declared,
                     distribution_output_signature d "all_action_values"
                     = Ok (SigSingleton declared))
                before ->
         distribution_output_signature dist "all_action_values" = Raise e ->
         ActionValue.output_signature Policy_output_signature "all_actions_values" self
         = (Raise e, self)).
Proof.
  split.
  - intros items Hitems.
    unfold ActionValue.output_signature. cbn [String.eqb Ascii.eqb Bool.eqb andb].
    unfold bind, attr, lift, ret. now rewrite (declared_tables Hitems).
  - intros before after name dist e Hsplit Hbefore Hdist.
    unfold ActionValue.output_signature. cbn [String.eqb Ascii.eqb Bool.eqb andb].
    unfold bind, attr, lift, ret.
    now rewrite Hsplit, (undeclared_table after name dist Hbefore Hdist).
Qed.

Lemma declared_values (actions_spec : Dict TensorSpec) :
  fmap (fun spec => Ok (signature true {| type := float_type; shape := shape spec |}))
       actions_spec
  = Ok (map (fun '(name, spec) =>
               (name, signature true {| type := float_type; shape := shape spec |}))
            actions_spec).
Proof.
  unfold fmap.
  rewrite map_result_ext with
    (g := fun item : string * TensorSpec =>
            Ok (let '(name, spec) := item in
                (name, signature true {| type := float_type; shape := shape spec |}))).
  - now rewrite map_result_total.
  - intros [name spec] _. reflexivity.
Qed.

Lemma strip_choice_axis (dims : list nat) (n : nat) :
  strip_last_axis (signature true {| type := float_type; shape := dims ++ [n] |})
  = signature true {| type := float_type; shape := dims |}.
Proof.
  unfold signature. cbn [strip_last_axis sig_type sig_shape type shape].
  rewrite map_app. cbn [map]. rewrite app_assoc, removelast_last. reflexivity.
Qed.

(** X3. The declared contracts obey the reduction law of the values:
    when the distribution of every action component declares the
    component's shape followed by one axis of choices, the contract of
    [states_values] is the contract of [all_actions_values] with the last
    axis of every component removed. *)
Theorem contracts_reduce (self : Self) :
  Forall2 (fun '(name, spec) '(name', dist) =>
             name' = name
             /\ exists n,
                 distribution_output_signature dist "all_action_values"
                 = Ok (SigSingleton
                         (signature true {| type := float_type;
                                            shape := shape spec ++ [n] |})))
          (actions_spec self) (distributions self) ->
  exists tables,
    ActionValue.output_signature Policy_output_signature "all_actions_values" self
    = (Ok tables, self)
    /\ ActionValue.output_signature Policy_output_signature "states_values" self
       = (Ok (strip_last_axis tables), self).
Proof.
  intros Hdeclared.
  assert (Hitems : exists items,
             fmap (fun x => result_bind
                              (distribution_output_signature x "all_action_values")
                              singleton)
                  (distributions self) = Ok items
             /\ map (fun '(name, v) => (name, strip_last_axis v)) items
                = map (fun '(name, spec) =>
                         (name, signature true {| type := float_type;
                                                  shape := shape spec |}))
                      (actions_spec self)).
  { induction Hdeclared as [|[name spec] [name' dist] specs dists (-> & n & Hdist) _
                              (items & Hfmap & Hstrip)].
    - exists []. split; reflexivity.
    - eexists ((name, _) :: items). unfold fmap in *. cbn [map_result].
      rewrite Hdist. cbn [result_bind singleton]. rewrite Hfmap. cbn [result_bind].
      split; [reflexivity|].
      cbn [map]. now rewrite strip_choice_axis, Hstrip. }
  destruct Hitems as (items & Hfmap & Hstrip).
  exists (SigSingleton (SigDict items)).
  unfold ActionValue.output_signature. cbn [String.eqb Ascii.eqb Bool.eqb andb].
  unfold bind, attr, lift, ret.
  rewrite Hfmap, declared_values. cbn [strip_last_axis]. rewrite Hstrip.
  split; reflexivity.
Qed.

End TableContracts.

(** ** Values against their contracts *)

Section Honoured.
Import Core Contract Layout.
Local Open Scope string_scope.
Local Open Scope list_scope.
Context {V : Type} `{Scalar V}.
Context {States Horizons Internals Auxiliaries Actions : Type}.

Variable Policy_output_signature : string -> M SignatureDict.

Let Class : Type := @ActionValue.Class V States Horizons Internals Auxiliaries Actions.

Lemma dims_fit_stated (dims : list nat) : dims_fit (map Some dims) dims = true.
Proof.
  induction dims as [|n dims IH]; simpl; [reflexivity|].
  now rewrite Nat.eqb_refl, IH.
Qed.

Lemma conforming_fits (b : nat) (actions_spec : Dict TensorSpec)
      (vals : Dict (TF.Tensor V)) :
  conforms b actions_spec vals ->
  fits (SigDict (map (fun '(name, spec) =>
                        (name, signature true {| type := float_type;
                                                 shape := shape spec |}))
                     actions_spec))
       vals.
Proof.
  unfold fits.
  induction 1 as [|[name spec] [name' value] specs vals (-> & Hshape & _) _ IH];
    cbn [map]; constructor; [|exact IH].
  split; [reflexivity|]. eexists. split; [reflexivity|].
  cbn [sig_shape type shape app]. rewrite Hshape. cbn [dims_fit dim_fits andb].
  apply dims_fit_stated.
Qed.

(** X4. [states_values] honours its declared output contract: on tables
    that carry, per component, the component's shape between the batch
    axis and one axis of choices, the returned mapping fits the contract
    [output_signature] declares for [states_values], name by name and
    dimension by dimension. *)
Theorem states_values_fits_contract (cls : Class)
        (states : States) (horizons : Horizons) (internals : Internals)
        (auxiliaries : Auxiliaries) (self self' : Self)
        (tables : Dict (TF.Tensor V)) (b : nat) :
  ActionValue.self_all_actions_values cls states horizons internals auxiliaries self
  = (Ok tables, self') ->
  tabulates b (actions_spec self') tables ->
  exists vals contract,
    ActionValue.states_values cls states horizons internals auxiliaries self
    = (Ok vals, self')
    /\ ActionValue.output_signature Policy_output_signature "states_values" self'
       = (Ok (SigSingleton contract), self')
    /\ fits contract vals.
Proof.
  intros Hcall Htables.
  destruct (reduced_conforms Htables) as (vals & Hvals & Hconf).
  exists vals. eexists. split; [|split].
  - unfold ActionValue.states_values, bind, lift. now rewrite Hcall, Hvals.
  - unfold ActionValue.output_signature. cbn [String.eqb Ascii.eqb Bool.eqb andb].
    unfold bind, attr, lift, ret. rewrite declared_values. reflexivity.
  - exact (conforming_fits Hconf).
Qed.

End Honoured.

(** ** The rows of the flat outputs *)

Section Rows.
Import Core Contract Layout.
Local Open Scope list_scope.
Context {V : Type} `{Scalar V}.
Context {States Horizons Internals Auxiliaries Actions : Type}.

Let Class : Type := @ActionValue.Class V States Horizons Internals Auxiliaries Actions.

Lemma flat_map_rows {A : Type} (R : nat -> list A) (w b : nat) :
  forall s e,
    (forall o, s <= o < s + b -> length (R o) = w) ->
    e < b ->
    firstn w (skipn (e * w) (flat_map R (seq s b))) = R (s + e).
Proof.
  induction b as [|b IH]; intros s e Hlen He; [lia|].
  cbn [seq flat_map].
  assert (Hs : length (R s) = w) by (apply Hlen; lia).
  destruct e as [|e].
  - cbn [Nat.mul skipn]. rewrite firstn_app, Hs, Nat.sub_diag. cbn [firstn].
    rewrite app_nil_r, Nat.add_0_r, <- Hs. apply firstn_all.
  - replace (S e * w) with (length (R s) + e * w) by (rewrite Hs; lia).
    rewrite skipn_app, skipn_all2 by lia.
    replace (length (R s) + e * w - length (R s)) with (e * w) by lia.
    cbn [app]. rewrite IH; [f_equal; lia| |lia].
    intros o Ho. apply Hlen. lia.
Qed.

(** The pieces the code cuts from conforming values are the values
    themselves, seen as matrices of one row per batch element. *)
Lemma reshaped_pieces (b : nat) (actions_spec : Dict TensorSpec) (vals : Dict (TF.Tensor V)) :
  conforms b actions_spec vals ->
  valid_actions_spec actions_spec ->
  fmap_zip (fun value spec => TF.reshape value [(-1)%Z; Z.of_nat (size spec)])
           vals actions_spec
  = Ok (map (fun '(name, value) =>
               (name, {| TF.shape := [b; TF.numel (tl (TF.shape value))];
                         TF.data := TF.data value |}))
            vals).
Proof.
  intros Hconf [Hnodup Hpos]. pose proof (conforms_keys Hconf) as Hkeys.
  induction Hconf as [|[name spec] [name' value] specs vals (-> & Hshape & Hwf) Hconf IH].
  - reflexivity.
  - simpl in Hnodup, Hkeys. inversion Hnodup as [|? ? Hfresh Hnodup']; subst.
    inversion Hpos as [|? ? Hsize Hpos']; subst.
    injection Hkeys as Hkeys.
    specialize (IH Hnodup' Hpos' Hkeys).
    assert (Hnumel : TF.numel (TF.shape value) = b * size spec)
      by (rewrite Hshape; reflexivity).
    pose proof (@fmap_zip_fresh _ _ _
                  (fun value spec => TF.reshape value [(-1)%Z; Z.of_nat (size spec)])
                  vals specs name spec) as Hskip.
    unfold fmap_zip in *. cbn [map_result map].
    rewrite getitem_head. cbn [result_bind].
    rewrite (@reshape_inferred V value b (size spec) Hsize Hnumel). cbn [result_bind].
    rewrite Hskip, IH by (now rewrite Hkeys). cbn [result_bind].
    rewrite Hshape. reflexivity.
Qed.

Lemma rows_of_pieces (b e : nat) (vals : Dict (TF.Tensor V)) :
  flat_map (fun t => firstn (TF.block 1 t) (skipn (e * TF.block 1 t) (TF.data t)))
           (values (map (fun '(name, value) =>
                           (name, {| TF.shape := [b; TF.numel (tl (TF.shape value))];
                                     TF.data := TF.data value |}))
                        vals))
  = flat_map (fun '(_, value) => batch_element e value) vals.
Proof.
  unfold values.
  induction vals as [|[name value] vals IH]; [reflexivity|].
  cbn [map flat_map snd]. rewrite IH. f_equal.
  unfold batch_element, row, TF.block. cbn [TF.shape TF.data skipn TF.numel fold_right].
  now rewrite Nat.mul_1_r.
Qed.

Lemma flatten_run_rows (m : M (Dict (TF.Tensor V))) (self self' : Self)
      (vals : Dict (TF.Tensor V)) (b : nat) :
  m self = (Ok vals, self') ->
  conforms b (actions_spec self') vals ->
  valid_actions_spec (actions_spec self') ->
  actions_spec self' <> [] ->
  exists t,
    bind m (fun values =>
    bind (attr actions_spec) (fun actions_spec =>
    bind (lift (fmap_zip
                  (fun (value : TF.Tensor V) (spec : TensorSpec) =>
                     TF.reshape value [(-1)%Z; Z.of_nat (size spec)])
                  values actions_spec)) (fun reshaped =>
    lift (TF.concat (Core.values reshaped) 1)))) self
    = (Ok t, self')
    /\ TF.shape t = [b; total_size (actions_spec self')]
    /\ forall e, e < b ->
         row (total_size (actions_spec self')) e (TF.data t)
         = flat_map (fun '(_, value) => batch_element e value) vals.
Proof.
  intros Hm Hconf Hvalid Hne.
  destruct (flatten_pieces Hconf Hvalid) as (reshaped & Hcode & _ & Hpieces).
  pose proof (reshaped_pieces Hconf Hvalid) as Hexplicit.
  rewrite Hcode in Hexplicit. injection Hexplicit as Hexplicit.
  pose proof (@pieces_width V b _ _ Hpieces) as Hwidth.
  unfold bind, attr, lift. rewrite Hm, Hcode.
  destruct (actions_spec self') as [|[name spec] specs] eqn:Hspec; [congruence|].
  destruct (values reshaped) as [|piece pieces] eqn:Hvalues;
    [inversion Hpieces|].
  pose proof Hpieces as Hall.
  inversion Hpieces as [|? ? ? ? Hhead _]; subst.
  destruct Hhead as [Hshape _].
  unfold TF.concat. rewrite Hshape.
  rewrite (@pieces_agree V b _ _ (size spec) Hall).
  eexists. split; [reflexivity|]. cbn [TF.shape TF.data firstn skipn app].
  rewrite Hwidth. split; [reflexivity|].
  intros e He. unfold row.
  replace (TF.numel [b]) with b by (simpl; lia).
  rewrite flat_map_rows; [|intros o Ho; apply (@pieces_row_length V b o _ _); [lia|exact Hall]
                          |exact He].
  cbn [Nat.add]. rewrite <- Hvalues. apply rows_of_pieces.
Qed.

(** X5. Every row of a flat output belongs to one batch element: on
    values that conform to their contract, row [e] of the output of
    [actions_value] is the concatenation, in the order of the returned
    components, of the entries of batch element [e] of every component;
    the same holds for [states_value] and the result of [states_values].
    Nothing of another batch element enters the row, and no entry is
    dropped or repeated. *)
Theorem flat_rows (cls : Class)
        (states : States) (horizons : Horizons) (internals : Internals)
        (auxiliaries : Auxiliaries) :
  (forall (actions : Actions) self self' vals b,
      ActionValue.self_actions_values cls states horizons internals auxiliaries actions self
      = (Ok vals, self') ->
      conforms b (actions_spec self') vals ->
      valid_actions_spec (actions_spec self') ->
      actions_spec self' <> [] ->
      exists t,
        ActionValue.actions_value cls states horizons internals auxiliaries actions self
        = (Ok t, self')
        /\ TF.shape t = [b; total_size (actions_spec self')]
        /\ forall e, e < b ->
             row (total_size (actions_spec self')) e (TF.data t)
             = flat_map (fun '(_, value) => batch_element e value) vals)
  /\ (forall self self' vals b,
         ActionValue.states_values cls states horizons internals auxiliaries self
         = (Ok vals, self') ->
         conforms b (actions_spec self') vals ->
         valid_actions_spec (actions_spec self') ->
         actions_spec self' <> [] ->
         exists t,
           ActionValue.states_value cls states horizons internals auxiliaries self
           = (Ok t, self')
           /\ TF.shape t = [b; total_size (actions_spec self')]
           /\ forall e, e < b ->
                row (total_size (actions_spec self')) e (TF.data t)
                = flat_map (fun '(_, value) => batch_element e value) vals).
Proof.
  split.
  - intros actions self self' vals b Hcall Hconf Hvalid Hne.
    exact (@flatten_run_rows _ self self' vals b Hcall Hconf Hvalid Hne).
  - intros self self' vals b Hcall Hconf Hvalid Hne.
    exact (@flatten_run_rows _ self self' vals b Hcall Hconf Hvalid Hne).
Qed.

End Rows.

(** ** What an output requires *)

Section Requirements.
Import Core Contract Layout.
Local Open Scope list_scope.
Context {V : Type} `{Scalar V}.
Context {States Horizons Internals Auxiliaries Actions : Type}.

Let Class : Type := @ActionValue.Class V States Horizons Internals Auxiliaries Actions.

Lemma reshape_rows (value piece : TF.Tensor V) (k : nat) :
  TF.reshape value [(-1)%Z; Z.of_nat k] = Ok piece ->
  exists q, TF.shape piece = [q; k] /\ TF.numel (TF.shape value) = q * k.
Proof.
  unfold TF.reshape, TF.infer_shape.
  assert (Hunknown : TF.unknown_dim (Z.of_nat k) = false)
    by (unfold TF.unknown_dim; apply Z.eqb_neq; lia).
  assert (Hknown : TF.known_product [(-1)%Z; Z.of_nat k] = k).
  { unfold TF.known_product. cbn [filter]. rewrite Hunknown.
    cbn [TF.unknown_dim Z.eqb Pos.eqb negb fold_right]. lia. }
  rewrite Hknown. cbn [existsb filter]. rewrite Hunknown.
  replace (Z.of_nat k <? -1)%Z with false by (symmetry; apply Z.ltb_ge; lia).
  cbn [TF.unknown_dim Z.eqb Pos.eqb Z.ltb Z.compare Pos.compare Pos.compare_cont
       orb length map].
  destruct (Nat.eqb_spec k 0) as [|Hk]; [discriminate|].
  destruct (Nat.eqb_spec (TF.numel (TF.shape value) mod k) 0) as [Hmod|]; [|discriminate].
  cbn [result_bind]. intros [= <-]. cbn [TF.shape].
  rewrite Hunknown, Nat2Z.id.
  exists (TF.numel (TF.shape value) / k). split; [reflexivity|].
  pose proof (Nat.div_mod_eq (TF.numel (TF.shape value)) k). lia.
Qed.

Lemma same_dims_eq (xs ys : list nat) : TF.same_dims xs ys = true -> xs = ys.
Proof.
  unfold TF.same_dims. destruct (list_eq_dec Nat.eq_dec xs ys); [auto|discriminate].
Qed.

Lemma whole_rows (q0 k0 : nat) (actions_spec : Dict TensorSpec) :
  forall (vals reshaped : Dict (TF.Tensor V)),
    keys vals = keys actions_spec ->
    NoDup (keys actions_spec) ->
    fmap_zip (fun value spec => TF.reshape value [(-1)%Z; Z.of_nat (size spec)])
             vals actions_spec = Ok reshaped ->
    forallb (fun t => TF.agree_except 1 [q0; k0] (TF.shape t)) (values reshaped) = true ->
    Forall2 (fun '(_, spec) '(_, value) => TF.numel (TF.shape value) = q0 * size spec)
            actions_spec vals.
Proof.
  induction actions_spec as [|[name spec] specs IH];
    intros vals reshaped Hkeys Hnodup Hzip Hagree.
  - destruct vals; [constructor|discriminate].
  - destruct vals as [|[name' value] vals]; [discriminate|].
    simpl in Hkeys. injection Hkeys as -> Hkeys.
    simpl in Hnodup. inversion Hnodup as [|? ? Hfresh Hnodup']; subst.
    pose proof (@fmap_zip_fresh _ _ _
                  (fun value spec => TF.reshape value [(-1)%Z; Z.of_nat (size spec)])
                  vals specs name spec) as Hskip.
    unfold fmap_zip in *. cbn [map_result] in Hzip.
    rewrite getitem_head in Hzip. cbn [result_bind] in Hzip.
    destruct (TF.reshape value _) as [piece|e] eqn:Hpiece; [|discriminate].
    cbn [result_bind] in Hzip. rewrite Hskip in Hzip by (now rewrite Hkeys).
    destruct (map_result _ vals) as [rest|e] eqn:Hrest; [|discriminate].
    injection Hzip as <-. cbn [values map snd forallb] in Hagree.
    apply andb_prop in Hagree. destruct Hagree as [Hhead Htail].
    destruct (@reshape_rows value piece (size spec) Hpiece) as (q & Hshape & Hnumel).
    constructor.
    + rewrite Hshape in Hhead. unfold TF.agree_except in Hhead.
      apply andb_prop in Hhead. destruct Hhead as [Hhead _].
      apply andb_prop in Hhead. destruct Hhead as [Hhead _].
      apply same_dims_eq in Hhead. cbn [firstn] in Hhead.
      injection Hhead as ->. exact Hnumel.
    + eapply IH; eassumption.
Qed.

Lemma flatten_run_requires (m : M (Dict (TF.Tensor V))) (self self' self'' : Self)
      (vals : Dict (TF.Tensor V)) (t : TF.Tensor V) :
  m self = (Ok vals, self') ->
  keys vals = keys (actions_spec self') ->
  NoDup (keys (actions_spec self')) ->
  bind m (fun values =>
  bind (attr actions_spec) (fun actions_spec =>
  bind (lift (fmap_zip
                (fun (value : TF.Tensor V) (spec : TensorSpec) =>
                   TF.reshape value [(-1)%Z; Z.of_nat (size spec)])
                values actions_spec)) (fun reshaped =>
  lift (TF.concat (Core.values reshaped) 1)))) self
  = (Ok t, self'') ->
  self'' = self'
  /\ exists q,
      TF.shape t = [q; total_size (actions_spec self')]
      /\ Forall2 (fun '(_, spec) '(_, value) => TF.numel (TF.shape value) = q * size spec)
                 (actions_spec self') vals.
Proof.
  intros Hm Hkeys Hnodup. unfold bind, attr, lift. rewrite Hm.
  destruct (fmap_zip _ vals (actions_spec self')) as [reshaped|e] eqn:Hzip; [|discriminate].
  intros [= Hconcat <-]. split; [reflexivity|].
  pose proof (@fmap_zip_columns V vals (actions_spec self') reshaped Hkeys Hnodup Hzip)
    as Hcolumns.
  pose proof (@agreeing_widths V _ _ Hcolumns) as Hwidth.
  unfold TF.concat in Hconcat.
  destruct (values reshaped) as [|piece pieces] eqn:Hvalues; [discriminate|].
  destruct (forallb _ (piece :: pieces)) eqn:Hagree; [|discriminate].
  injection Hconcat as <-.
  assert (Hhead : exists q k, TF.shape piece = [q; k]).
  { inversion Hcolumns as [|[? ?] ? ? ? [q Hq] _]; subst. eauto. }
  destruct Hhead as (q & k & Hshape). rewrite Hshape in Hagree.
  exists q. split.
  - cbn [TF.shape]. rewrite Hshape. cbn [firstn skipn app].
    f_equal. f_equal. rewrite <- Hshape. exact Hwidth.
  - eapply whole_rows; try eassumption. rewrite Hvalues. exact Hagree.
Qed.

(** X6. An output exists only for whole rows: whenever [actions_value]
    returns a tensor on values named as the actions specification, the
    tensor has some number [q] of rows, every component holds exactly
    [q] times its size entries, and the object is as [actions_values]
    left it; likewise for [states_value] and the result of
    [states_values].  Components that disagree in their number of rows
    never yield an output. *)
Theorem output_requires_whole_rows (cls : Class)
        (states : States) (horizons : Horizons) (internals : Internals)
        (auxiliaries : Auxiliaries) :
  (forall (actions : Actions) self self' self'' vals t,
      ActionValue.self_actions_values cls states horizons internals auxiliaries actions self
      = (Ok vals, self') ->
      keys vals = keys (actions_spec self') ->
      NoDup (keys (actions_spec self')) ->
      ActionValue.actions_value cls states horizons internals auxiliaries actions self
      = (Ok t, self'') ->
      self'' = self'
      /\ exists q,
          TF.shape t = [q; total_size (actions_spec self')]
          /\ Forall2 (fun '(_, spec) '(_, value) =>
                        TF.numel (TF.shape value) = q * size spec)
                     (actions_spec self') vals)
  /\ (forall self self' self'' vals t,
         ActionValue.states_values cls states horizons internals auxiliaries self
         = (Ok vals, self') ->
         keys vals = keys (actions_spec self') ->
         NoDup (keys (actions_spec self')) ->
         ActionValue.states_value cls states horizons internals auxiliaries self
         = (Ok t, self'') ->
         self'' = self'
         /\ exists q,
             TF.shape t = [q; total_size (actions_spec self')]
             /\ Forall2 (fun '(_, spec) '(_, value) =>
                           TF.numel (TF.shape value) = q * size spec)
                        (actions_spec self') vals).
Proof.
  split.
  - intros actions self self' self'' vals t Hcall Hkeys Hnodup Hrun.
    eapply flatten_run_requires; eassumption.
  - intros self self' self'' vals t Hcall Hkeys Hnodup Hrun.
    eapply flatten_run_requires; eassumption.
Qed.

End Requirements.

(** ** The order of values *)

Section Dominance.
Import Core Contract Layout.
Local Open Scope list_scope.
Context {V : Type} `{ScalarOrder V}.
Context {States Horizons Internals Auxiliaries Actions : Type}.

Let Class : Type := @ActionValue.Class V States Horizons Internals Auxiliaries Actions.

Lemma table_entries (table : TF.Tensor V) :
  value_table table ->
  TF.shape table <> []
  /\ length (TF.data table)
     = TF.numel (removelast (TF.shape table)) * last (TF.shape table) 0.
Proof.
  intros [Hwf Hrank].
  destruct (shape_of_rank2 (TF.shape table) Hrank) as (b & s & n & Hshape).
  unfold TF.well_formed in Hwf. rewrite Hwf, Hshape.
  change (b :: s ++ [n]) with ((b :: s) ++ [n]).
  rewrite removelast_last, last_last, numel_app.
  split; [discriminate|]. simpl. lia.
Qed.

(** The value of any admissible choice is at most the maximum. *)
Lemma take_below (table value top : TF.Tensor V) (action : TF.Tensor nat) :
  value_table table ->
  TF.take_along_last table action = Ok value ->
  TF.reduce_max table = Ok top ->
  below value top.
Proof.
  intros Htable Htake Hmax.
  destruct (table_entries Htable) as [Hne Hlen].
  unfold TF.take_along_last, TF.reduce_max in *.
  destruct (TF.shape table) as [|d ds] eqn:Hshape; [congruence|].
  set (s := removelast (d :: ds)) in *. set (n := last (d :: ds) 0) in *.
  destruct (TF.same_dims (TF.shape action) s && (length (TF.data action) =? TF.numel s)
            && forallb (fun i => i <? n) (TF.data action)) eqn:Hcheck; [|discriminate].
  apply andb_prop in Hcheck. destruct Hcheck as [Hcheck Hbounds].
  apply andb_prop in Hcheck. destruct Hcheck as [_ Hcount].
  apply Nat.eqb_eq in Hcount.
  injection Htake as <-. injection Hmax as <-.
  split; [reflexivity|]. cbn [TF.shape TF.data]. intros j Hj.
  set (slices := TF.rows n (TF.numel s) (TF.data table)).
  assert (Hslices : length slices = TF.numel s) by apply rows_length.
  pose proof (map_nth (fun '(slice, i) => nth i slice lowest)
                      (combine slices (TF.data action)) ([], 0) j) as Evalue.
  cbn [nth] in Evalue. rewrite Evalue. clear Evalue.
  rewrite combine_nth by lia.
  pose proof (map_nth TF.max_of slices [] j) as Etop.
  cbn [TF.max_of] in Etop. rewrite Etop. clear Etop.
  unfold slices. rewrite rows_nth by exact Hj.
  apply max_of_upper, nth_In.
  rewrite slice_length by nia.
  rewrite forallb_forall in Hbounds. apply Nat.ltb_lt, Hbounds, nth_In. lia.
Qed.

Lemma takes_below (tables : Dict (TF.Tensor V)) (actions : Dict (TF.Tensor nat))
      (vals tops : Dict (TF.Tensor V)) :
  Forall (fun '(_, table) => value_table table) tables ->
  fmap_zip (fun table action => TF.take_along_last table action) tables actions = Ok vals ->
  fmap (fun action_values => TF.reduce_max action_values) tables = Ok tops ->
  all_below vals tops.
Proof.
  unfold fmap_zip, fmap, all_below. intros Htables. revert vals tops.
  induction Htables as [|[name table] tables Htable _ IH]; intros vals tops Htake Hmax;
    cbn [map_result] in Htake, Hmax.
  - injection Htake as <-. injection Hmax as <-. constructor.
  - destruct (getitem actions name) as [action|e]; [|discriminate].
    cbn [result_bind] in Htake.
    destruct (TF.take_along_last table action) as [value|e] eqn:Hvalue; [|discriminate].
    destruct (TF.reduce_max table) as [top|e] eqn:Htop; [|discriminate].
    cbn [result_bind] in Htake, Hmax.
    destruct (map_result _ tables) as [vals'|e] eqn:Hvals in Htake; [|discriminate].
    destruct (map_result _ tables) as [tops'|e] eqn:Htops in Hmax; [|discriminate].
    injection Htake as <-. injection Hmax as <-.
    constructor; [|now apply IH].
    split; [reflexivity|]. eapply take_below; eassumption.
Qed.

(** X7. The value of a state dominates the value of every joint action:
    for an estimator whose value of a joint action is the entry of its
    tables at that action, whenever [actions_values] returns for some
    joint action, [states_values] returns too, with the same components
    and shapes, and every entry of [actions_values] is at most the entry
    of [states_values] at the same place. *)
Theorem state_value_dominates (discrete : Dict (TF.Tensor nat) -> Actions) (cls : Class)
        (states : States) (horizons : Horizons) (internals : Internals)
        (auxiliaries : Auxiliaries)
        (self self' self'' : Self) (tables vals : Dict (TF.Tensor V))
        (actions : Dict (TF.Tensor nat)) :
  consistent discrete cls ->
  ActionValue.self_all_actions_values cls states horizons internals auxiliaries self
  = (Ok tables, self') ->
  Forall (fun '(_, table) => value_table table) tables ->
  ActionValue.self_actions_values cls states horizons internals auxiliaries
                                  (discrete actions) self
  = (Ok vals, self'') ->
  exists tops,
    ActionValue.states_values cls states horizons internals auxiliaries self
    = (Ok tops, self')
    /\ all_below vals tops.
Proof.
  intros Hcons Hcall Htables Hvalue.
  rewrite Hcons in Hvalue. unfold bind, lift in Hvalue. rewrite Hcall in Hvalue.
  injection Hvalue as Htake _.
  destruct (fmap_reduce_max Htables) as (tops & Htops & _).
  exists tops. split.
  - unfold ActionValue.states_values, bind, lift. now rewrite Hcall, Htops.
  - eapply takes_below; eassumption.
Qed.

Lemma reduce_max_monotone (low high low_top high_top : TF.Tensor V) :
  value_table low -> value_table high ->
  below low high ->
  TF.reduce_max low = Ok low_top ->
  TF.reduce_max high = Ok high_top ->
  below low_top high_top.
Proof.
  intros Hlow Hhigh [Hshape Hle] Hlow_top Hhigh_top.
  destruct Hlow as [Hlow_wf Hlow_rank]. destruct Hhigh as [Hhigh_wf Hhigh_rank].
  destruct (reduce_max_reduces Hlow_wf Hlow_rank) as (r & Hr & Hr_shape & _ & _ & Hr_max).
  destruct (reduce_max_reduces Hhigh_wf Hhigh_rank) as (r' & Hr' & Hr'_shape & _ & _ & Hr'_max).
  rewrite Hlow_top in Hr. injection Hr as <-.
  rewrite Hhigh_top in Hr'. injection Hr' as <-.
  split; [now rewrite Hr_shape, Hr'_shape, Hshape|].
  intros j Hj.
  assert (Hj' : j < TF.numel (TF.shape low_top))
    by (now rewrite Hr_shape, Hshape, <- Hr'_shape).
  destruct (Hr_max j Hj') as (_ & Hattained & Hempty).
  destruct (Hr'_max j Hj) as (Hupper & _ & Hempty').
  rewrite Hshape in Hattained, Hempty.
  destruct (Nat.eq_dec (last (TF.shape high) 0) 0) as [Hn|Hn].
  - rewrite (Hempty Hn), (Hempty' Hn). apply vle_refl.
  - destruct Hattained as (k & Hk & ->); [lia|].
    eapply vle_trans; [|apply Hupper; exact Hk].
    apply Hle.
    destruct (shape_of_rank2 (TF.shape high) Hhigh_rank) as (b & s & n & Hhigh_shape).
    rewrite Hr'_shape in Hj. rewrite Hhigh_shape in Hj, Hk |- *.
    change (b :: s ++ [n]) with ((b :: s) ++ [n]) in *.
    rewrite removelast_last in Hj. rewrite last_last in Hk |- *.
    rewrite numel_app. replace (TF.numel [n]) with n by (simpl; lia). nia.
Qed.

Lemma reductions_monotone (lows highs low_tops high_tops : Dict (TF.Tensor V)) :
  Forall (fun '(_, table) => value_table table) lows ->
  Forall (fun '(_, table) => value_table table) highs ->
  all_below lows highs ->
  fmap (fun action_values => TF.reduce_max action_values) lows = Ok low_tops ->
  fmap (fun action_values => TF.reduce_max action_values) highs = Ok high_tops ->
  all_below low_tops high_tops.
Proof.
  unfold fmap, all_below. intros Hlows Hhighs Hbelow.
  revert low_tops high_tops Hlows Hhighs.
  induction Hbelow as [|[name low] [name' high] lows highs [-> Hle] _ IH];
    intros low_tops high_tops Hlows Hhighs Hlow Hhigh; cbn [map_result] in Hlow, Hhigh.
  - injection Hlow as <-. injection Hhigh as <-. constructor.
  - inversion Hlows as [|? ? Hlow_table Hlows']; subst.
    inversion Hhighs as [|? ? Hhigh_table Hhighs']; subst.
    destruct (TF.reduce_max low) as [low_top|e] eqn:Hlow_top; [|discriminate].
    destruct (TF.reduce_max high) as [high_top|e] eqn:Hhigh_top; [|discriminate].
    cbn [result_bind] in Hlow, Hhigh.
    destruct (map_result _ lows) as [low_rest|e] eqn:Hlow_rest; [|discriminate].
    destruct (map_result _ highs) as [high_rest|e] eqn:Hhigh_rest; [|discriminate].
    injection Hlow as <-. injection Hhigh as <-.
    constructor; [|now apply IH].
    split; [reflexivity|].
    exact (reduce_max_monotone Hlow_table Hhigh_table Hle Hlow_top Hhigh_top).
Qed.

(** X8. [states_values] is monotone in the tables: when the tables one
    call of [all_actions_values] returns are, component by component and
    entry by entry, at most those of another call, the values of the
    first state are at most those of the second. *)
Theorem states_values_monotone (cls cls' : Class)
        (states states' : States) (horizons horizons' : Horizons)
        (internals internals' : Internals) (auxiliaries auxiliaries' : Auxiliaries)
        (self self' after after' : Self) (lows highs : Dict (TF.Tensor V)) :
  ActionValue.self_all_actions_values cls states horizons internals auxiliaries self
  = (Ok lows, after) ->
  ActionValue.self_all_actions_values cls' states' horizons' internals' auxiliaries' self'
  = (Ok highs, after') ->
  Forall (fun '(_, table) => value_table table) lows ->
  Forall (fun '(_, table) => value_table table) highs ->
  all_below lows highs ->
  exists low_tops high_tops,
    ActionValue.states_values cls states horizons internals auxiliaries self
    = (Ok low_tops, after)
    /\ ActionValue.states_values cls' states' horizons' internals' auxiliaries' self'
       = (Ok high_tops, after')
    /\ all_below low_tops high_tops.
Proof.
  intros Hlow Hhigh Hlows Hhighs Hbelow.
  destruct (fmap_reduce_max Hlows) as (low_tops & Hlow_tops & _).
  destruct (fmap_reduce_max Hhighs) as (high_tops & Hhigh_tops & _).
  exists low_tops, high_tops. split; [|split].
  - unfold ActionValue.states_values, bind, lift. now rewrite Hlow, Hlow_tops.
  - unfold ActionValue.states_values, bind, lift. now rewrite Hhigh, Hhigh_tops.
  - exact (reductions_monotone Hlows Hhighs Hbelow Hlow_tops Hhigh_tops).
Qed.

End Dominance.

(** ** The callbacks and assertions of the learning tests *)

Section LearningTests.
Import TestPPOAgent.
Local Open Scope list_scope.

Lemma last_slice_all {A : Type} (p : A -> bool) (n : nat) (xs : list A) (d : A) :
  forallb p (last_slice n xs) = true
  <-> forall i, length xs - n <= i < length xs -> p (nth i xs d) = true.
Proof.
  unfold last_slice. set (m := length xs - n). rewrite forallb_forall. split.
  - intros Hall i [Hlo Hhi].
    replace i with (m + (i - m)) by lia. rewrite <- nth_skipn.
    apply Hall, nth_In. rewrite length_skipn. lia.
  - intros Hall x Hx.
    destruct (In_nth _ _ d Hx) as (k & Hk & <-).
    rewrite length_skipn in Hk. rewrite nth_skipn. apply Hall. lia.
Qed.

Lemma continues_or_stops {A : Type} (p : A -> bool) (n : nat) (limit episode : Z)
      (xs : list A) (d : A) :
  (episode <? limit)%Z || negb (forallb p (last_slice n xs)) = false
  <-> (limit <= episode)%Z
      /\ forall i, length xs - n <= i < length xs -> p (nth i xs d) = true.
Proof.
  rewrite orb_false_iff, negb_false_iff, Z.ltb_ge.
  now rewrite (last_slice_all p n xs d).
Qed.

(** X9. The callback of a learning test answers [False], which asks the
    runner to stop, exactly when at least 100 episodes are finished and
    each of the last 100 rewards (all of them, if there are fewer) is at
    least one; older rewards never matter.  The callback of [test_multi]
    is the same with 20 for 100. *)
Theorem episode_finished_stops {Reward : Type} (at_least_one : Reward -> bool)
        (r : Runner Reward) (d : Reward) :
  (episode_finished at_least_one r = false
   <-> (100 <= episode r)%Z
       /\ forall i,
           length (episode_rewards r) - 100 <= i < length (episode_rewards r) ->
           at_least_one (nth i (episode_rewards r) d) = true)
  /\ (episode_finished_multi at_least_one r = false
      <-> (20 <= episode r)%Z
          /\ forall i,
              length (episode_rewards r) - 20 <= i < length (episode_rewards r) ->
              at_least_one (nth i (episode_rewards r) d) = true).
Proof.
  split; apply continues_or_stops.
Qed.

Lemma count_passed_filter (runs : nat) (limit : Z) (episodes_of : nat -> Z) :
  count_passed runs limit episodes_of
  = Z.of_nat (length (filter (fun i => (episodes_of i <? limit)%Z) (seq 0 runs))).
Proof.
  unfold count_passed.
  assert (Hfold : forall (l : list nat) (acc : Z),
             fold_left
               (fun passed i => if (episodes_of i <? limit)%Z then (passed + 1)%Z else passed)
               l acc
             = (acc + Z.of_nat (length (filter (fun i => (episodes_of i <? limit)%Z) l)))%Z).
  { induction l as [|i l IH]; intros acc; simpl; [lia|].
    rewrite IH. destruct (episodes_of i <? limit)%Z; simpl length; lia. }
  rewrite Hfold. lia.
Qed.

(** X10. What the final assertions of the learning tests decide: the
    assertion of [test_multi] holds whatever the five runs did, so the
    test cannot fail on the learning result; the assertion of
    [test_discrete], and of [test_continuous], holds exactly when at most
    one of the five runs reached 1000 episodes. *)
Theorem learning_assertions (episodes_of : nat -> Z) :
  test_multi episodes_of = true
  /\ (test_discrete episodes_of = true
      <-> length (filter (fun i => (1000 <=? episodes_of i)%Z) (seq 0 5)) <= 1)
  /\ test_continuous episodes_of = test_discrete episodes_of.
Proof.
  split; [|split; [|reflexivity]].
  - unfold test_multi. rewrite count_passed_filter. apply Z.geb_le. lia.
  - unfold test_discrete. rewrite count_passed_filter, Z.geb_le.
    pose proof (filter_length (fun i => (episodes_of i <? 1000)%Z) (seq 0 5)) as Hsplit.
    rewrite length_seq in Hsplit.
    replace (filter (fun i => (1000 <=? episodes_of i)%Z) (seq 0 5))
      with (filter (fun i => negb (episodes_of i <? 1000)%Z) (seq 0 5)).
    + lia.
    + apply filter_ext. intros i. now rewrite Z.leb_antisym.
Qed.

End LearningTests.

(** ** The further laws at the concrete policy *)

Section FurtherInstances.
Import Core Contract Layout Example Example2.
Local Open Scope string_scope.
Local Open Scope list_scope.

Lemma tables_are_tables : Forall (fun '(_, table) => value_table table) tables.
Proof. repeat constructor; simpl; lia. Qed.

Lemma higher_tables_are_tables : Forall (fun '(_, table) => value_table table) higher_tables.
Proof. repeat constructor; simpl; lia. Qed.

Lemma tables_below_higher : all_below tables higher_tables.
Proof.
  constructor; [|constructor; [|constructor]].
  - split; [reflexivity|]. split; [reflexivity|].
    intros j Hj. do 12 (destruct j as [|j]; [reflexivity|]). simpl in Hj. lia.
  - split; [reflexivity|]. split; [reflexivity|].
    intros j Hj. do 4 (destruct j as [|j]; [reflexivity|]). simpl in Hj. lia.
Qed.

Lemma estimator_failure_propagates_witness :
  ActionValue.actions_value failing tt tt tt tt greedy policy
  = (Raise (KeyError "weights"), policy)
  /\ ActionValue.states_values failing tt tt tt tt policy
     = (Raise (KeyError "weights"), policy)
  /\ ActionValue.states_value failing tt tt tt tt policy
     = (Raise (KeyError "weights"), policy).
Proof.
  destruct (estimator_failure_propagates failing tt tt tt tt greedy policy policy
              (KeyError "weights")) as [Hactions Hstates].
  split; [apply Hactions|apply Hstates]; reflexivity.
Defined.

Lemma all_actions_values_contract_witness :
  ActionValue.output_signature no_signature "all_actions_values" policy
  = (Ok (SigSingleton (SigDict
           [("move", signature true {| type := float_type; shape := [2; 3] |});
            ("jump", signature true {| type := float_type; shape := [1; 2] |})])),
     policy)
  /\ ActionValue.output_signature no_signature "all_actions_values" half_declared
     = (Raise NotImplementedError, half_declared).
Proof.
  split.
  - apply (proj1 (all_actions_values_contract no_signature policy)).
    repeat constructor.
  - apply (proj2 (all_actions_values_contract no_signature half_declared))
      with (before := [("move", {| distribution_output_signature := table_signature [2] 3 |})])
           (after := []) (name := "jump")
           (dist := {| distribution_output_signature := fun _ => Raise NotImplementedError |}).
    + reflexivity.
    + repeat constructor. now eexists.
    + reflexivity.
Defined.

Lemma contracts_reduce_witness :
  exists declared,
    ActionValue.output_signature no_signature "all_actions_values" policy
    = (Ok declared, policy)
    /\ ActionValue.output_signature no_signature "states_values" policy
       = (Ok (strip_last_axis declared), policy).
Proof.
  apply (contracts_reduce no_signature policy).
  constructor; [|constructor; [|constructor]].
  - split; [reflexivity|]. now exists 3.
  - split; [reflexivity|]. now exists 2.
Defined.

Lemma states_values_fits_contract_witness :
  exists vals contract,
    ActionValue.states_values table_lookup tt tt tt tt policy = (Ok vals, policy)
    /\ ActionValue.output_signature no_signature "states_values" policy
       = (Ok (SigSingleton contract), policy)
    /\ fits contract vals.
Proof.
  apply (states_values_fits_contract no_signature table_lookup tt tt tt tt policy
           (self' := policy) (tables := tables) (b := 2)).
  - reflexivity.
  - exact tables_tabulated.
Defined.

Lemma flat_rows_witness :
  exists t,
    ActionValue.actions_value table_lookup tt tt tt tt greedy policy = (Ok t, policy)
    /\ TF.shape t = [2; total_size (actions_spec policy)]
    /\ forall e, e < 2 ->
         row (total_size (actions_spec policy)) e (TF.data t)
         = flat_map (fun '(_, value) => batch_element e value) reduced.
Proof.
  apply (proj1 (flat_rows table_lookup tt tt tt tt) greedy policy policy reduced 2).
  - reflexivity.
  - exact reduced_conforming.
  - exact policy_valid.
  - discriminate.
Defined.

Lemma output_requires_whole_rows_witness :
  policy = policy
  /\ exists q,
      TF.shape {| TF.shape := [2; 3]; TF.data := [5; 7; 8; -1; 9; 0]%Z |}
      = [q; total_size (actions_spec policy)]
      /\ Forall2 (fun '(_, spec) '(_, value) => TF.numel (TF.shape value) = q * size spec)
                 (actions_spec policy) reduced.
Proof.
  apply (proj1 (output_requires_whole_rows table_lookup tt tt tt tt)
               greedy policy policy policy reduced).
  - reflexivity.
  - reflexivity.
  - exact (proj1 policy_valid).
  - reflexivity.
Defined.

Lemma state_value_dominates_witness :
  exists tops,
    ActionValue.states_values table_lookup tt tt tt tt policy = (Ok tops, policy)
    /\ all_below
         [("move", {| TF.shape := [2; 2]; TF.data := [1; 0; -1; 4]%Z |});
          ("jump", {| TF.shape := [2; 1]; TF.data := [6; -4]%Z |})]
         tops.
Proof.
  apply (state_value_dominates (discrete := fun actions => actions) (cls := table_lookup)
           tt tt tt tt policy cautious
           (self' := policy) (self'' := policy) (tables := tables)).
  - exact table_lookup_consistent.
  - reflexivity.
  - exact tables_are_tables.
  - reflexivity.
Defined.

Lemma states_values_monotone_witness :
  exists low_tops high_tops,
    ActionValue.states_values table_lookup tt tt tt tt policy = (Ok low_tops, policy)
    /\ ActionValue.states_values higher_lookup tt tt tt tt policy = (Ok high_tops, policy)
    /\ all_below low_tops high_tops.
Proof.
  apply (states_values_monotone table_lookup higher_lookup tt tt tt tt tt tt tt tt
           policy policy (after := policy) (after' := policy)
           (lows := tables) (highs := higher_tables)).
  - reflexivity.
  - reflexivity.
  - exact tables_are_tables.
  - exact higher_tables_are_tables.
  - exact tables_below_higher.
Defined.

Lemma episode_finished_stops_witness :
  TestPPOAgent.episode_finished_multi reward_at_least_one
    {| TestPPOAgent.episode := 25;
       TestPPOAgent.episode_rewards := (0 :: repeat 2 20)%Z |}
  = false.
Proof.
  apply (proj2 (episode_finished_stops reward_at_least_one
                  {| TestPPOAgent.episode := 25;
                     TestPPOAgent.episode_rewards := (0 :: repeat 2 20)%Z |} 0%Z)).
  split; [cbn; lia|].
  intros i Hi. cbn in Hi.
  do 21 (destruct i as [|i]; [first [reflexivity | exfalso; lia]|]).
  exfalso. lia.
Defined.

End FurtherInstances.

(** * The order of concatenation *)

Section FlatOrder.
Import Core Contract Order.
Local Open Scope list_scope.
Context {V : Type} `{Scalar V}.
Context {States Horizons Internals Auxiliaries Actions : Type}.

Let Class : Type := @ActionValue.Class V States Horizons Internals Auxiliaries Actions.








End FlatOrder.

(** ** The order of concatenation at the concrete policy *)

Section FlatOrderInstances.
Import Core Contract Order Example Swapped.
Local Open Scope string_scope.
Local Open Scope list_scope.







End FlatOrderInstances.
